(** * txkube: the object and collection model, the raw codec and the
    collection paths

    A shallow embedding of [txkube/_model.py]: the [v1] namespace of
    persistent classes with the behaviours the module attaches to it
    ([NamespaceStatus], [Namespace], [ConfigMap] and the two list classes),
    the sorted collections of [_List], and the codec
    [iobject_to_raw] / [iobject_from_raw].

    Python values become Rocq data: dictionaries are [gmap string _],
    [pvector]s are lists, persistent classes are records, [None] in an
    optional field is [None], a raised exception is the [Raise] branch of
    [result].  The random bytes behind [uuid4] are an explicit argument. *)

From stdpp Require Import gmap strings list fin_maps sorting.
From Stdlib Require Import ZArith String Ascii Permutation Lia.

#[local] Open Scope string_scope.
#[local] Open Scope Z_scope.
#[local] Set Warnings "-register-all".

(** ** Raw values

    What [json.loads] produces and what [serialize] emits; after
    [pyrsistent.freeze] a [dict] is a [pmap] and a [list] a [pvector], which
    changes the operations available on them but not their content. *)
Inductive raw : Type :=
| RNone
| RBool (b : bool)
| RInt (z : Z)
| RStr (s : string)
| RList (l : list raw)
| RDict (d : gmap string raw).

(** ** Exceptions and fallible results *)
Inductive exn : Type :=
| KeyError (key : raw)
| ValueError (msg : string)
| TypeError (msg : string)
| AttributeError (msg : string)
| InvariantException (msg : string).

Inductive result (A : Type) : Type :=
| Ok (a : A)
| Raise (e : exn).
Arguments Ok {A} a.
Arguments Raise {A} e.

(** Exceptions propagate: the rest of a computation is skipped. *)
#[global] Instance result_bind : MBind result := fun A B k r =>
  match r with
  | Ok a => k a
  | Raise e => Raise e
  end.

#[global] Instance result_ret : MRet result := fun A a => Ok a.

Fixpoint mapM_result {A B : Type} (f : A -> result B) (l : list A)
  : result (list B) :=
  match l with
  | [] => Ok []
  | x :: xs => y ← f x; ys ← mapM_result f xs; Ok (y :: ys)
  end.

(** ** Dictionary operations used by the codec *)

(** [d.get(key, default)]. *)
Definition dict_get (d : gmap string raw) (key : string) (dflt : raw) : raw :=
  default dflt (d !! key).

(** [d.update(other)]: the entries of [other] win. *)
Definition dict_update (d other : gmap string raw) : gmap string raw :=
  other ∪ d.

(** [pmap.discard(key)]: no error when the key is absent. *)
Definition discard (key : string) (d : gmap string raw) : gmap string raw :=
  delete key d.

(** ** The standard library's [uuid] module

    [uuid4()] is [UUID(bytes=os.urandom(16), version=4)].  The sixteen random
    bytes are read as one big-endian integer; the constructor then forces
    the RFC 4122 variant and the version number into it. *)
Module uuid.

(** The integer spelled by sixteen bytes lies below [2^128]. *)
Definition of_bytes16 (urandom : Z) : Z := urandom mod 2 ^ 128.

Definition UUID (int version : Z) : Z :=
  let int := Z.land int (Z.lnot (Z.shiftl 0xc000 48)) in
  let int := Z.lor int (Z.shiftl 0x8000 48) in
  let int := Z.land int (Z.lnot (Z.shiftl 0xf000 64)) in
  Z.lor int (Z.shiftl version 76).

Definition uuid4 (urandom : Z) : Z := UUID (of_bytes16 urandom) 4.

Definition hexdigit (d : Z) : ascii :=
  match d with
  | 0 => "0" | 1 => "1" | 2 => "2" | 3 => "3"
  | 4 => "4" | 5 => "5" | 6 => "6" | 7 => "7"
  | 8 => "8" | 9 => "9" | 10 => "a" | 11 => "b"
  | 12 => "c" | 13 => "d" | 14 => "e" | _ => "f"
  end%char.

(** ['%0<width>x' % n] for [0 <= n < 16 ^ width]: exactly [width] digits,
    most significant first. *)
Fixpoint hex (width : nat) (n : Z) : string :=
  match width with
  | O => ""
  | S w => hex w (Z.shiftr n 4) +:+ String (hexdigit (Z.land n 15)) ""
  end.

(** [str(UUID)]: [hex[:8]-hex[8:12]-hex[12:16]-hex[16:20]-hex[20:]]. *)
Definition str (int : Z) : string :=
  let h := hex 32 int in
  substring 0 8 h +:+ "-" +:+ substring 8 4 h +:+ "-" +:+ substring 12 4 h
    +:+ "-" +:+ substring 16 4 h +:+ "-" +:+ substring 20 12 h.

(** The bits of the random draw that survive in the UUID: all but the two
    variant bits (63, 62) and the four version bits (79..76). *)
Definition kept_bits (urandom : Z) : Z :=
  Z.land (of_bytes16 urandom)
    (Z.lnot (Z.lor (Z.shiftl 0xc000 48) (Z.shiftl 0xf000 64))).

(** Reading a hexadecimal string back, used to invert [hex]. *)
Definition digit_value (c : ascii) : Z :=
  let n := Z.of_nat (nat_of_ascii c) in
  if (48 <=? n) && (n <=? 57) then n - 48 else n - 87.

Fixpoint unhex_from (acc : Z) (s : string) : Z :=
  match s with
  | "" => acc
  | String c s' => unhex_from (16 * acc + digit_value c) s'
  end.

Definition unhex (s : string) : Z := unhex_from 0 s.

(** Dropping the four dashes of a formatted UUID. *)
Definition undash (s : string) : string :=
  substring 0 8 s +:+ substring 9 4 s +:+ substring 14 4 s
    +:+ substring 19 4 s +:+ substring 24 12 s.

End uuid.

(** ** The persistent classes of [v1] *)

(** Modelled from the spec: the classes behind [v1.ObjectMeta],
    [v1.NamespaceStatus], [v1.Namespace], [v1.ConfigMap] and the two list
    classes are synthesized by [txkube/_swagger.py] from the schema document
    [kubernetes-1.5.json]; neither file is among the sources.  The records
    below carry the fields the spec's data model names (a metadata
    sub-structure with name, namespace, unique identifier and resource
    version stamp; a status sub-structure for namespaces; the items of a
    collection), and [serialize] / [create] follow pyrsistent's [PClass]:
    [serialize] emits every field, nested classes recursively, and [create]
    rejects a key that is no field of the class and a value of the wrong
    type.  [kind] and [apiVersion] are attributes of the class, not fields:
    [serialize] never emits them.

    [_model.py] reads [obj.metadata.name] unguarded and
    [getattr(obj.metadata, "namespace", None)] with a default; accordingly
    the name is always present here and the namespace is optional. *)
Class PClass (A : Type) : Type := {
  serialize : A -> gmap string raw;
  create : gmap string raw -> result A;
}.

Definition raw_of_option (o : option string) : raw :=
  match o with
  | Some s => RStr s
  | None => RNone
  end.

(** [create] refuses keyword arguments that are not fields of the class. *)
Definition check_fields (cls : string) (fields : list string)
    (d : gmap string raw) : result unit :=
  if decide (dom d ⊆ list_to_set fields)
  then Ok ()
  else Raise (AttributeError ("unexpected field for " +:+ cls)).

Definition optional_string (d : gmap string raw) (field : string)
  : result (option string) :=
  match d !! field with
  | None | Some RNone => Ok None
  | Some (RStr s) => Ok (Some s)
  | Some _ => Raise (TypeError ("type of " +:+ field))
  end.

Definition mandatory_string (d : gmap string raw) (field : string)
  : result string :=
  match d !! field with
  | Some (RStr s) => Ok s
  | None | Some RNone => Raise (InvariantException ("missing " +:+ field))
  | Some _ => Raise (TypeError ("type of " +:+ field))
  end.

Module ObjectMeta.

(** Modelled from the spec: the fields of the metadata sub-structure (name,
    namespace, unique identifier, resource version stamp); the schema that
    declares them is not among the sources. *)
Record t : Type := {
  name : string;
  namespace : option string;
  uid : option string;
  resourceVersion : option string;
}.

#[global] Instance eq_dec : EqDecision t.
Proof. solve_decision. Defined.

Definition fields : list string :=
  ["name"; "namespace"; "uid"; "resourceVersion"].

(** Modelled from the spec: [PClass.serialize] for the synthesized class
    (not among the sources), every field under its own name. *)
Definition serialize (m : t) : gmap string raw :=
  {[ "name" := RStr (name m);
     "namespace" := raw_of_option (namespace m);
     "uid" := raw_of_option (uid m);
     "resourceVersion" := raw_of_option (resourceVersion m) ]}.

(** Modelled from the spec: [PClass.create] for the synthesized class (not
    among the sources), the inverse of [serialize] on what it emits. *)
Definition create (d : gmap string raw) : result t :=
  _ ← check_fields "ObjectMeta" fields d;
  n ← mandatory_string d "name";
  ns ← optional_string d "namespace";
  u ← optional_string d "uid";
  rv ← optional_string d "resourceVersion";
  Ok {| name := n; namespace := ns; uid := u; resourceVersion := rv |}.

End ObjectMeta.

#[global] Instance ObjectMeta_pclass : PClass ObjectMeta.t :=
  {| serialize := ObjectMeta.serialize; create := ObjectMeta.create |}.

(** A nested class-typed field: absent or [None] stays [None], a mapping is
    handed to the nested class's [create]. *)
Definition optional_object {A : Type} `{PClass A} (d : gmap string raw)
    (field : string) : result (option A) :=
  match d !! field with
  | None | Some RNone => Ok None
  | Some (RDict d') => a ← create d'; Ok (Some a)
  | Some _ => Raise (TypeError ("type of " +:+ field))
  end.

Definition mandatory_object {A : Type} `{PClass A} (d : gmap string raw)
    (field : string) : result A :=
  match d !! field with
  | Some (RDict d') => create d'
  | None | Some RNone => Raise (InvariantException ("missing " +:+ field))
  | Some _ => Raise (TypeError ("type of " +:+ field))
  end.

(** What has a [metadata] attribute that is an [ObjectMeta]. *)
Class HasMetadata (A : Type) : Type := metadata : A -> ObjectMeta.t.

Module NamespaceStatus.

(** Modelled from the spec: the status sub-structure of a namespace, whose
    schema is not among the sources; [phase] is the field the named
    constructors below set. *)
Record t : Type := { phase : option string }.

#[global] Instance eq_dec : EqDecision t.
Proof. solve_decision. Defined.

Definition serialize (s : t) : gmap string raw :=
  {[ "phase" := raw_of_option (phase s) ]}.

Definition create (d : gmap string raw) : result t :=
  _ ← check_fields "NamespaceStatus" ["phase"] d;
  p ← optional_string d "phase";
  Ok {| phase := p |}.

Definition active : t := {| phase := Some "Active" |}.

Definition terminating : t := {| phase := Some "Terminating" |}.

End NamespaceStatus.

#[global] Instance NamespaceStatus_pclass : PClass NamespaceStatus.t :=
  {| serialize := NamespaceStatus.serialize;
     create := NamespaceStatus.create |}.

Module Namespace.

(** Modelled from the spec: a namespace carries the metadata sub-structure
    and a status sub-structure (its schema is not among the sources); both
    are the fields [named] and [fill_defaults] below touch. *)
Record t : Type := {
  metadata : ObjectMeta.t;
  status : option NamespaceStatus.t;
}.

#[global] Instance eq_dec : EqDecision t.
Proof. solve_decision. Defined.

Definition serialize (self : t) : gmap string raw :=
  {[ "metadata" := RDict (ObjectMeta.serialize (metadata self));
     "status" := match status self with
                 | Some s => RDict (NamespaceStatus.serialize s)
                 | None => RNone
                 end ]}.

Definition create (d : gmap string raw) : result t :=
  _ ← check_fields "Namespace" ["metadata"; "status"] d;
  m ← mandatory_object d "metadata";
  s ← optional_object d "status";
  Ok {| metadata := m; status := s |}.

(** Create an object with only the name metadata item. *)
Definition named (name : string) : t :=
  {| metadata := {| ObjectMeta.name := name;
                    ObjectMeta.namespace := None;
                    ObjectMeta.uid := None;
                    ObjectMeta.resourceVersion := None |};
     status := None |}.

(** Get the default namespace. *)
Definition default : t := named "default".

(** [self.transform([u"metadata", u"uid"], unicode(uuid4()),
                    [u"status"], NamespaceStatus.active())]: the two paths
    are set one after the other, whatever they held before.  [urandom] is
    what [os.urandom(16)] returns to this call of [uuid4]. *)
Definition fill_defaults (self : t) (urandom : Z) : t :=
  let self :=
    {| metadata :=
         {| ObjectMeta.name := ObjectMeta.name (metadata self);
            ObjectMeta.namespace := ObjectMeta.namespace (metadata self);
            ObjectMeta.uid := Some (uuid.str (uuid.uuid4 urandom));
            ObjectMeta.resourceVersion :=
              ObjectMeta.resourceVersion (metadata self) |};
       status := status self |} in
  {| metadata := metadata self; status := Some NamespaceStatus.active |}.

End Namespace.

#[global] Instance Namespace_pclass : PClass Namespace.t :=
  {| serialize := Namespace.serialize; create := Namespace.create |}.

#[global] Instance Namespace_metadata : HasMetadata Namespace.t :=
  Namespace.metadata.

Module ConfigMap.

(** Modelled from the spec: a config map, of which [_model.py] uses the
    metadata sub-structure only (its schema is not among the sources). *)
Record t : Type := { metadata : ObjectMeta.t }.

#[global] Instance eq_dec : EqDecision t.
Proof. solve_decision. Defined.

Definition serialize (self : t) : gmap string raw :=
  {[ "metadata" := RDict (ObjectMeta.serialize (metadata self)) ]}.

Definition create (d : gmap string raw) : result t :=
  _ ← check_fields "ConfigMap" ["metadata"] d;
  m ← mandatory_object d "metadata";
  Ok {| metadata := m |}.

(** Create an object with only namespace and name metadata items. *)
Definition named (namespace : option string) (name : string) : t :=
  {| metadata := {| ObjectMeta.name := name;
                    ObjectMeta.namespace := namespace;
                    ObjectMeta.uid := None;
                    ObjectMeta.resourceVersion := None |} |}.

Definition fill_defaults (self : t) : t := self.

End ConfigMap.

#[global] Instance ConfigMap_pclass : PClass ConfigMap.t :=
  {| serialize := ConfigMap.serialize; create := ConfigMap.create |}.

#[global] Instance ConfigMap_metadata : HasMetadata ConfigMap.t :=
  ConfigMap.metadata.

(** ** Sort keys and Python 2's ordering of them

    [object_sort_key] returns the pair (namespace or [None], name).  Python 2
    compares tuples lexicographically, orders [None] before every string and
    compares [unicode] strings code unit by code unit. *)
Definition sort_key : Type := option string * string.

Definition cmp_optional (a b : option string) : comparison :=
  match a, b with
  | None, None => Eq
  | None, Some _ => Lt
  | Some _, None => Gt
  | Some x, Some y => String.compare x y
  end.

Definition cmp_key (k1 k2 : sort_key) : comparison :=
  match cmp_optional (fst k1) (fst k2) with
  | Eq => String.compare (snd k1) (snd k2)
  | c => c
  end.

Definition key_leb (k1 k2 : sort_key) : bool :=
  match cmp_key k1 k2 with
  | Gt => false
  | _ => true
  end.

Definition key_le (k1 k2 : sort_key) : Prop := key_leb k1 k2 = true.

Definition key_lt (k1 k2 : sort_key) : Prop := cmp_key k1 k2 = Lt.

(** [sorted(iterable, key=key)]: ascending and stable.  An element is put in
    front of the first element of the sorted tail whose key is not smaller,
    so elements with equal keys keep the order they came in. *)
Section sorted.
Context {A : Type} (key : A -> sort_key).

Fixpoint insert_sorted (x : A) (l : list A) : list A :=
  match l with
  | [] => [x]
  | y :: ys =>
      if key_leb (key x) (key y) then x :: y :: ys
      else y :: insert_sorted x ys
  end.

Fixpoint sorted (l : list A) : list A :=
  match l with
  | [] => []
  | x :: xs => insert_sorted x (sorted xs)
  end.

(** The order the collection invariant speaks of. *)
Definition ordered (l : list A) : Prop :=
  StronglySorted (fun a b => key_le (key a) (key b)) l.

End sorted.

(** ** Collections *)
Section collections.
Context {A : Type} `{HasMetadata A} `{EqDecision A}.

(** [obj.metadata.name] and [obj.metadata.namespace]. *)
Definition name_of (obj : A) : string := ObjectMeta.name (metadata obj).

Definition namespace_of (obj : A) : option string :=
  ObjectMeta.namespace (metadata obj).

(** Define a predictable sort ordering for Kubernetes objects. *)
Definition object_sort_key (obj : A) : sort_key :=
  (ObjectMeta.namespace (metadata obj), ObjectMeta.name (metadata obj)).

Definition add (value : A) : list A -> list A :=
  fun pvector => sorted object_sort_key (pvector ++ [value]).

(** [pvector.remove(value)]: drops the first element equal to [value];
    as with [list.remove], it is a [ValueError] when there is none. *)
Fixpoint pvector_remove (value : A) (l : list A) : result (list A) :=
  match l with
  | [] => Raise (ValueError "list.remove(x): x not in list")
  | x :: xs =>
      if decide (x = value) then Ok xs
      else xs' ← pvector_remove value xs; Ok (x :: xs')
  end.

Definition remove (value : A) : list A -> result (list A) :=
  fun pset => pvector_remove value pset.

(** The loop of [item_by_name]. *)
Fixpoint first_named (name : string) (l : list A) : result A :=
  match l with
  | [] => Raise (KeyError (RStr name))
  | obj :: rest =>
      if decide (ObjectMeta.name (metadata obj) = name) then Ok obj
      else first_named name rest
  end.

End collections.

Module _List.

(** Modelled from the spec: a collection is an ordered sequence of resource
    values of one kind, the [items] field of the synthesized list classes
    (whose schema is not among the sources). *)
Record t (A : Type) : Type := { items : list A }.
Arguments items {A} _.

#[global] Instance eq_dec {A : Type} `{EqDecision A} : EqDecision (t A).
Proof. solve_decision. Defined.

Section methods.
Context {A : Type} `{HasMetadata A} `{EqDecision A}.

(** Find an item in this collection by its name metadata. *)
Definition item_by_name (self : t A) (name : string) : result A :=
  first_named name (items self).

(** [self.transform([u"items"], remove(old), [u"items"], add(new))]: the
    transformations run in order, and an exception in the first one leaves
    [transform] before the second. *)
Definition replace (self : t A) (old new : A) : result (t A) :=
  items1 ← remove old (items self);
  Ok {| items := add new items1 |}.

(** [self.transform([u"items"], add(obj))].  (Stated after [replace] so that
    [add] above still names the module-level evolver.) *)
Definition add (self : t A) (obj : A) : t A :=
  {| items := add obj (items self) |}.

End methods.

Section pclass.
Context {A : Type} `{PClass A}.

(** Modelled from the spec: [PClass.serialize] and [PClass.create] for the
    synthesized list classes (not among the sources); the items are
    serialized and created by their own class, in order. *)
Definition serialize (self : t A) : gmap string raw :=
  {[ "items" := RList ((fun obj => RDict (serialize obj)) <$> items self) ]}.

Definition create_item (r : raw) : result A :=
  match r with
  | RDict d => create d
  | _ => Raise (TypeError "type of items")
  end.

Definition create (d : gmap string raw) : result (t A) :=
  _ ← check_fields "List" ["items"] d;
  match d !! "items" with
  | None => Ok {| items := [] |}
  | Some (RList l) => its ← mapM_result create_item l; Ok {| items := its |}
  | Some _ => Raise (TypeError "type of items")
  end.

End pclass.

End _List.

#[global] Instance List_pclass {A : Type} `{PClass A} : PClass (_List.t A) :=
  {| serialize := _List.serialize; create := _List.create |}.

Abbreviation NamespaceList := (_List.t Namespace.t).
Abbreviation ConfigMapList := (_List.t ConfigMap.t).

(** ** The catalog: [v1] and [_versions] *)

(** What [iobject_to_raw] accepts from this module: the classes declared
    [@implementer(IObject)]. *)
Inductive iobject : Type :=
| INamespace (o : Namespace.t)
| IConfigMap (o : ConfigMap.t)
| INamespaceList (o : NamespaceList)
| IConfigMapList (o : ConfigMapList).

(** What [iobject_from_raw] can return: an instance of any class reachable
    through [v1].  An instance of a class that only the schema document
    defines is kept as its class name and field mapping. *)
Inductive pobject : Type :=
| PIObject (o : iobject)
| PNamespaceStatus (o : NamespaceStatus.t)
| PDefinition (name : string) (fields : gmap string raw).

(** What [txkube/_swagger.py] and the schema document contribute, neither
    being among the sources: a parameter of the model.
    [pclass_for_definition] is what [VersionedPClasses.__getattr__] does
    with the name of a definition (such as ["v1.Pod"]): it returns the class
    synthesized from it, given here by what its [create] does with a field
    mapping, or raises.  [own_attribute] tells the names that ordinary
    attribute lookup finds on a [VersionedPClasses] object because its class
    puts them there (the fields its constructor sets, its methods); none of
    them is a persistent class. *)
Record Swagger : Type := {
  pclass_for_definition :
    string -> result (gmap string raw -> result (gmap string raw));
  own_attribute : string -> bool;
}.

Inductive pclass : Type :=
| NamespaceStatus_class
| Namespace_class
| ConfigMap_class
| NamespaceList_class
| ConfigMapList_class
| Definition_class (name : string)
    (create : gmap string raw -> result (gmap string raw)).

(** [cls.__name__] *)
Definition class_name (cls : pclass) : string :=
  match cls with
  | NamespaceStatus_class => "NamespaceStatus"
  | Namespace_class => "Namespace"
  | ConfigMap_class => "ConfigMap"
  | NamespaceList_class => "NamespaceList"
  | ConfigMapList_class => "ConfigMapList"
  | Definition_class name _ => name
  end.

(** [cls.create(others)] *)
Definition class_create (cls : pclass) (others : gmap string raw)
  : result pobject :=
  match cls with
  | NamespaceStatus_class => o ← create others; Ok (PNamespaceStatus o)
  | Namespace_class => o ← create others; Ok (PIObject (INamespace o))
  | ConfigMap_class => o ← create others; Ok (PIObject (IConfigMap o))
  | NamespaceList_class => o ← create others; Ok (PIObject (INamespaceList o))
  | ConfigMapList_class => o ← create others; Ok (PIObject (IConfigMapList o))
  | Definition_class name create => o ← create others; Ok (PDefinition name o)
  end.

(** A [VersionedPClasses] object: the schema, the version, and the
    attributes set on the instance (by [behavior]). *)
Record VersionedPClasses : Type := {
  spec : Swagger;
  version : string;
  attributes : gmap string pclass;
}.

(** The class decorator [behavior(namespace)]:
    [setattr(namespace, cls.__name__, cls)]. *)
Definition behavior (namespace : VersionedPClasses) (cls : pclass)
  : VersionedPClasses :=
  {| spec := spec namespace;
     version := version namespace;
     attributes := <[class_name cls := cls]> (attributes namespace) |}.

(** [v1], after the five decorated class statements of the module. *)
Definition v1 (spec : Swagger) : VersionedPClasses :=
  let v1 := {| spec := spec; version := "v1"; attributes := ∅ |} in
  let v1 := behavior v1 NamespaceStatus_class in
  let v1 := behavior v1 Namespace_class in
  let v1 := behavior v1 ConfigMap_class in
  let v1 := behavior v1 NamespaceList_class in
  behavior v1 ConfigMapList_class.

(** [VersionedPClasses.__getattr__], reached for a name that ordinary
    attribute lookup does not find: the class of the definition
    [<version>.<name>], or the exception the schema layer raises for it. *)
Definition getattr_fallback (v : VersionedPClasses) (name : string)
  : result pclass :=
  let definition := version v +:+ "." +:+ name in
  create ← pclass_for_definition (spec v) definition;
  Ok (Definition_class name create).

(** What [getattr] can find on a [VersionedPClasses] object: a persistent
    class, or something else the object has under that name. *)
Inductive attribute : Type :=
| AClass (cls : pclass)
| AOther (name : string).

(** The attributes every instance of a Python class has. *)
Definition instance_attributes : list string :=
  ["__class__"; "__dict__"; "__doc__"; "__module__"].

(** The builtin [getattr(v, name)].  The attribute name must be a string.
    Ordinary lookup comes first: what [behavior] has set on the instance
    (none of the five names it sets is an attribute the object has
    otherwise), then what every instance has and what the class of the
    object gives it.  Only a name found nowhere goes to [__getattr__]. *)
Definition getattr (v : VersionedPClasses) (name : raw) : result attribute :=
  match name with
  | RStr s =>
      match attributes v !! s with
      | Some cls => Ok (AClass cls)
      | None =>
          if bool_decide (s ∈ instance_attributes) || own_attribute (spec v) s
          then Ok (AOther s)
          else cls ← getattr_fallback v s; Ok (AClass cls)
      end
  | _ => Raise (TypeError "getattr(): attribute name must be string")
  end.

(** [cls.create(others)] on what [getattr] returned: only a persistent
    class has a [create]. *)
Definition attribute_create (cls : attribute) (others : gmap string raw)
  : result pobject :=
  match cls with
  | AClass cls => class_create cls others
  | AOther name =>
      Raise (AttributeError ("no attribute 'create' on " +:+ name))
  end.

Definition _versions (spec : Swagger) : gmap string VersionedPClasses :=
  {[ "v1" := v1 spec ]}.

(** [d[key]] on [_versions], whose keys are strings: any other key, [None]
    included, is simply not there. *)
Definition getitem (d : gmap string VersionedPClasses) (key : raw)
  : result VersionedPClasses :=
  match key with
  | RStr s =>
      match d !! s with
      | Some v => Ok v
      | None => Raise (KeyError key)
      end
  | _ => Raise (KeyError key)
  end.

(** The pairs the catalog holds: version ["v1"] with a kind that [_model.py]
    attaches to [v1] or that the schema defines. *)
Definition registered (spec : Swagger) (apiVersion kind : raw) : Prop :=
  apiVersion = RStr "v1" /\
  exists k : string, kind = RStr k /\
    (k ∈ ["NamespaceStatus"; "Namespace"; "ConfigMap"; "NamespaceList";
          "ConfigMapList"]
     \/ exists create, pclass_for_definition spec ("v1." +:+ k) = Ok create).

(** ** The raw codec *)

(** [obj.kind] and [obj.apiVersion], class attributes. *)
Definition kind (obj : iobject) : string :=
  match obj with
  | INamespace _ => "Namespace"
  | IConfigMap _ => "ConfigMap"
  | INamespaceList _ => "NamespaceList"
  | IConfigMapList _ => "ConfigMapList"
  end.

Definition apiVersion (obj : iobject) : string := "v1".

Definition iobject_serialize (obj : iobject) : gmap string raw :=
  match obj with
  | INamespace o => serialize o
  | IConfigMap o => serialize o
  | INamespaceList o => serialize o
  | IConfigMapList o => serialize o
  end.

Definition iobject_to_raw (obj : iobject) : gmap string raw :=
  let result := iobject_serialize obj in
  dict_update result
    {[ "kind" := RStr (kind obj); "apiVersion" := RStr (apiVersion obj) ]}.

(** Load an object of unspecified type from the raw representation of it.
    The hints default to [RNone].  ([@mutant] freezes the argument and the
    return value; on immutable data that is the identity.) *)
Definition iobject_from_raw (spec : Swagger) (obj : gmap string raw)
    (kind_hint version_hint : raw) : result pobject :=
  let kind := dict_get obj "kind" kind_hint in
  let apiVersion := dict_get obj "apiVersion" version_hint in
  v ← getitem (_versions spec) apiVersion;
  cls ← getattr v kind;
  let others := discard "apiVersion" (discard "kind" obj) in
  attribute_create cls others.

(** ** Collection paths *)
Module _network.

(** An instance carries the namespace of its metadata; a bare type has
    none. *)
Inductive descriptor : Type :=
| Instance (apiVersion kind : string) (namespace : option string)
| BareType (apiVersion kind : string).

Definition descriptor_apiVersion (o : descriptor) : string :=
  match o with
  | Instance v _ _ | BareType v _ => v
  end.

Definition descriptor_kind (o : descriptor) : string :=
  match o with
  | Instance _ k _ | BareType _ k => k
  end.

Definition descriptor_namespace (o : descriptor) : option string :=
  match o with
  | Instance _ _ ns => ns
  | BareType _ _ => None
  end.

Definition lower_char (c : ascii) : ascii :=
  let n := nat_of_ascii c in
  if (65 <=? n)%nat && (n <=? 90)%nat then ascii_of_nat (n + 32) else c.

Fixpoint lower (s : string) : string :=
  match s with
  | "" => ""
  | String c s' => String (lower_char c) (lower s')
  end.

(** Modelled from the spec: [collection_location] is defined in
    [txkube/_network.py], which is not among the sources (only its tests
    are).  The three rules of the spec's Path Resolver are applied in order:
    the base by apiVersion, the namespace segments when the descriptor
    carries a non-empty namespace, the lower-cased kind with ["s"] appended.
    How the group is derived from the apiVersion is not given by the spec
    and is a parameter. *)
Definition collection_location (group : string -> string) (o : descriptor)
  : list string :=
  let apiVersion := descriptor_apiVersion o in
  let base :=
    if decide (apiVersion = "v1") then ["api"; "v1"]
    else ["apis"; group apiVersion; apiVersion] in
  let scope :=
    match descriptor_namespace o with
    | Some ns => if decide (ns = "") then [] else ["namespaces"; ns]
    | None => []
    end in
  base ++ scope ++ [lower (descriptor_kind o) +:+ "s"].

End _network.

(** ** Sample values, for the concrete instances below *)
Module sample.

(** Two config maps named ["x"], in the namespaces ["a"] and ["b"]. *)
Definition x_in_a : ConfigMap.t := ConfigMap.named (Some "a") "x".

Definition x_in_b : ConfigMap.t := ConfigMap.named (Some "b") "x".

(** [x_in_b] once the server has stamped it. *)
Definition x_in_b' : ConfigMap.t :=
  {| ConfigMap.metadata :=
       {| ObjectMeta.name := "x";
          ObjectMeta.namespace := Some "b";
          ObjectMeta.uid := None;
          ObjectMeta.resourceVersion := Some "7" |} |}.

Definition y_in_a : ConfigMap.t := ConfigMap.named (Some "a") "y".

Definition empty : ConfigMapList := {| _List.items := [] |}.

Definition only_x : ConfigMapList := _List.add empty x_in_a.

Definition both_x : ConfigMapList := _List.add (_List.add empty x_in_b) x_in_a.

Definition x_and_y : ConfigMapList := _List.add (_List.add empty y_in_a) x_in_a.

(** A schema layer that defines nothing and adds no attribute of its
    own. *)
Definition no_definitions : Swagger :=
  {| pclass_for_definition := fun name => Raise (KeyError (RStr name));
     own_attribute := fun _ => false |}.

End sample.

(** ** More sample values *)
Module sample_more.

(** [sample.x_in_a] once the server has stamped it: same sort key. *)
Definition x_in_a' : ConfigMap.t :=
  {| ConfigMap.metadata :=
       {| ObjectMeta.name := "x";
          ObjectMeta.namespace := Some "a";
          ObjectMeta.uid := None;
          ObjectMeta.resourceVersion := Some "9" |} |}.

(** What [sample.x_and_y] becomes when [sample.x_in_a] is replaced by
    [sample.x_in_b]. *)
Definition y_and_x_in_b : ConfigMapList :=
  {| _List.items := [sample.y_in_a; sample.x_in_b] |}.

Definition ns_a : Namespace.t := Namespace.named "a".

Definition ns_b : Namespace.t := Namespace.named "b".

Definition a_and_b : NamespaceList :=
  _List.add (_List.add {| _List.items := [] |} ns_b) ns_a.

(** A raw config map that names neither its kind nor its version. *)
Definition untagged : gmap string raw := ConfigMap.serialize sample.x_in_a.

End sample_more.

(** * Properties *)

(** ** The order on sort keys is total *)
Section order.

Lemma ascii_compare_refl (c : ascii) : Ascii.compare c c = Eq.
Proof. unfold Ascii.compare. apply N.compare_refl. Qed.

Lemma ascii_compare_lt_trans (a b c : ascii) :
  Ascii.compare a b = Lt -> Ascii.compare b c = Lt -> Ascii.compare a c = Lt.
Proof.
  unfold Ascii.compare. rewrite !N.compare_lt_iff. apply N.lt_trans.
Qed.

Lemma string_compare_refl (s : string) : String.compare s s = Eq.
Proof.
  induction s as [|c s IH]; simpl; [done|].
  by rewrite ascii_compare_refl.
Qed.

Lemma string_compare_lt_trans (s1 s2 s3 : string) :
  String.compare s1 s2 = Lt -> String.compare s2 s3 = Lt ->
  String.compare s1 s3 = Lt.
Proof.
  revert s2 s3. induction s1 as [|c1 s1 IH]; intros [|c2 s2] [|c3 s3];
    simpl; try done.
  destruct (Ascii.compare c1 c2) eqn:H12; try done;
    destruct (Ascii.compare c2 c3) eqn:H23; try done; intros Ha Hb.
  - apply Ascii.compare_eq_iff in H12, H23. subst.
    rewrite ascii_compare_refl. eauto.
  - apply Ascii.compare_eq_iff in H12. subst. by rewrite H23.
  - apply Ascii.compare_eq_iff in H23. subst. by rewrite H12.
  - by rewrite (ascii_compare_lt_trans _ _ _ H12 H23).
Qed.

Lemma cmp_optional_refl (a : option string) : cmp_optional a a = Eq.
Proof. destruct a; simpl; [apply string_compare_refl | done]. Qed.

Lemma cmp_optional_eq (a b : option string) : cmp_optional a b = Eq -> a = b.
Proof.
  destruct a, b; simpl; try done.
  by intros ->%String.compare_eq_iff.
Qed.

Lemma cmp_optional_antisym (a b : option string) :
  cmp_optional a b = CompOpp (cmp_optional b a).
Proof. destruct a, b; simpl; try done. apply String.compare_antisym. Qed.

Lemma cmp_optional_lt_trans (a b c : option string) :
  cmp_optional a b = Lt -> cmp_optional b c = Lt -> cmp_optional a c = Lt.
Proof.
  destruct a, b, c; simpl; try done. apply string_compare_lt_trans.
Qed.

Lemma cmp_key_refl (k : sort_key) : cmp_key k k = Eq.
Proof.
  unfold cmp_key. by rewrite cmp_optional_refl, string_compare_refl.
Qed.

Lemma cmp_key_eq (k1 k2 : sort_key) : cmp_key k1 k2 = Eq -> k1 = k2.
Proof.
  destruct k1 as [a1 b1], k2 as [a2 b2]. unfold cmp_key. simpl.
  destruct (cmp_optional a1 a2) eqn:Ha; try done.
  intros ->%String.compare_eq_iff. by apply cmp_optional_eq in Ha as ->.
Qed.

Lemma cmp_key_antisym (k1 k2 : sort_key) :
  cmp_key k1 k2 = CompOpp (cmp_key k2 k1).
Proof.
  unfold cmp_key. rewrite (cmp_optional_antisym (fst k1) (fst k2)).
  destruct (cmp_optional (fst k2) (fst k1)); simpl; try done.
  apply String.compare_antisym.
Qed.

Lemma cmp_key_lt_trans (k1 k2 k3 : sort_key) :
  cmp_key k1 k2 = Lt -> cmp_key k2 k3 = Lt -> cmp_key k1 k3 = Lt.
Proof.
  destruct k1 as [a1 b1], k2 as [a2 b2], k3 as [a3 b3]. unfold cmp_key. simpl.
  destruct (cmp_optional a1 a2) eqn:H12; try done;
    destruct (cmp_optional a2 a3) eqn:H23; try done; intros Ha Hb.
  - apply cmp_optional_eq in H12, H23. subst.
    rewrite cmp_optional_refl. eauto using string_compare_lt_trans.
  - apply cmp_optional_eq in H12. subst. by rewrite H23.
  - apply cmp_optional_eq in H23. subst. by rewrite H12.
  - by rewrite (cmp_optional_lt_trans _ _ _ H12 H23).
Qed.

Lemma key_le_refl (k : sort_key) : key_le k k.
Proof. unfold key_le, key_leb. by rewrite cmp_key_refl. Qed.

Lemma key_le_trans (k1 k2 k3 : sort_key) :
  key_le k1 k2 -> key_le k2 k3 -> key_le k1 k3.
Proof.
  unfold key_le, key_leb.
  destruct (cmp_key k1 k2) eqn:H12; try done;
    destruct (cmp_key k2 k3) eqn:H23; try done; intros _ _.
  - apply cmp_key_eq in H12 as ->. by rewrite H23.
  - apply cmp_key_eq in H12 as ->. by rewrite H23.
  - apply cmp_key_eq in H23 as <-. by rewrite H12.
  - by rewrite (cmp_key_lt_trans _ _ _ H12 H23).
Qed.

Lemma key_le_total (k1 k2 : sort_key) : key_le k1 k2 \/ key_le k2 k1.
Proof.
  unfold key_le, key_leb. rewrite (cmp_key_antisym k2 k1).
  destruct (cmp_key k1 k2); simpl; auto.
Qed.

Lemma key_leb_false (k1 k2 : sort_key) :
  key_leb k1 k2 = false -> key_lt k2 k1.
Proof.
  unfold key_leb, key_lt. rewrite (cmp_key_antisym k2 k1).
  by destruct (cmp_key k1 k2).
Qed.

Lemma key_lt_le (k1 k2 : sort_key) : key_lt k1 k2 -> key_le k1 k2.
Proof. unfold key_lt, key_le, key_leb. by intros ->. Qed.

Lemma key_lt_not_le (k1 k2 : sort_key) : key_lt k1 k2 -> ~ key_le k2 k1.
Proof.
  unfold key_lt, key_le, key_leb. rewrite (cmp_key_antisym k2 k1).
  by intros ->.
Qed.

Lemma key_le_antisym (k1 k2 : sort_key) :
  key_le k1 k2 -> key_le k2 k1 -> k1 = k2.
Proof.
  unfold key_le, key_leb. rewrite (cmp_key_antisym k2 k1).
  destruct (cmp_key k1 k2) eqn:E; simpl; try done.
  intros _ _. by apply cmp_key_eq.
Qed.

End order.

(** ** [sorted] is a stable sort *)
Section sorted_facts.
Context {A : Type} (key : A -> sort_key).

Lemma insert_sorted_length (x : A) (l : list A) :
  List.length (insert_sorted key x l) = S (List.length l).
Proof.
  induction l as [|y ys IH]; simpl; [done|].
  destruct (key_leb (key x) (key y)); simpl; by rewrite ?IH.
Qed.

Lemma sorted_length (l : list A) :
  List.length (sorted key l) = List.length l.
Proof.
  induction l as [|x xs IH]; simpl; [done|].
  by rewrite insert_sorted_length, IH.
Qed.

Lemma insert_sorted_perm (x : A) (l : list A) :
  insert_sorted key x l ≡ₚ x :: l.
Proof.
  induction l as [|y ys IH]; simpl; [done|].
  destruct (key_leb (key x) (key y)); [done|].
  rewrite IH. apply Permutation_swap.
Qed.

Lemma sorted_perm (l : list A) : sorted key l ≡ₚ l.
Proof.
  induction l as [|x xs IH]; simpl; [done|].
  by rewrite insert_sorted_perm, IH.
Qed.

Lemma insert_sorted_ordered (x : A) (l : list A) :
  ordered key l -> ordered key (insert_sorted key x l).
Proof.
  unfold ordered. induction 1 as [|y ys Hys IH Hy]; simpl.
  - repeat constructor.
  - destruct (key_leb (key x) (key y)) eqn:Hxy.
    + constructor; [by constructor|].
      constructor; [done|].
      eapply Forall_impl; [exact Hy|]. simpl. intros z Hz.
      by eapply key_le_trans.
    + constructor; [done|].
      rewrite insert_sorted_perm. constructor; [|done].
      by apply key_lt_le, key_leb_false.
Qed.

Lemma sorted_ordered (l : list A) : ordered key (sorted key l).
Proof.
  induction l as [|x xs IH]; simpl; [constructor|].
  by apply insert_sorted_ordered.
Qed.

(** Stability: among the elements of one key, the order is the original. *)
Lemma insert_sorted_stable (k : sort_key) (x : A) (l : list A) :
  filter (fun y => key y = k) (insert_sorted key x l)
  = filter (fun y => key y = k) (x :: l).
Proof.
  induction l as [|y ys IH]; simpl; [done|].
  destruct (key_leb (key x) (key y)) eqn:Hxy; [done|].
  apply key_leb_false in Hxy.
  rewrite !filter_cons in *.
  destruct (decide (key x = k)) as [Hx|Hx], (decide (key y = k)) as [Hy|Hy];
    rewrite ?IH; try done.
  exfalso. rewrite <- Hy in Hx. rewrite Hx in Hxy.
  unfold key_lt in Hxy. by rewrite cmp_key_refl in Hxy.
Qed.

Lemma sorted_stable (k : sort_key) (l : list A) :
  filter (fun y => key y = k) (sorted key l) = filter (fun y => key y = k) l.
Proof.
  induction l as [|x xs IH]; simpl; [done|].
  rewrite insert_sorted_stable, !filter_cons, IH. done.
Qed.

(** In an ordered list the head is least. *)
Lemma ordered_head_le (x y : A) (l : list A) :
  ordered key (x :: l) -> y ∈ x :: l -> key_le (key x) (key y).
Proof.
  intros Hord Hy. apply StronglySorted_inv in Hord as [_ Hall].
  apply elem_of_cons in Hy as [->|Hy]; [apply key_le_refl|].
  by eapply Forall_forall in Hall.
Qed.

Lemma ordered_tail (x : A) (l : list A) : ordered key (x :: l) -> ordered key l.
Proof. intros Hord. by apply StronglySorted_inv in Hord as [? _]. Qed.

End sorted_facts.

(** ** Collections: the evolvers and the lookup loop *)
Section collection_facts.
Context {A : Type} `{HasMetadata A} `{EqDecision A}.

Implicit Types (l : list A) (C : _List.t A).

Lemma add_length (value : A) l : List.length (add value l) = S (List.length l).
Proof.
  unfold add. rewrite sorted_length, length_app. simpl. lia.
Qed.

Lemma add_perm (value : A) l : add value l ≡ₚ value :: l.
Proof.
  unfold add. rewrite sorted_perm. symmetry. apply Permutation_cons_append.
Qed.

Lemma add_ordered (value : A) l : ordered object_sort_key (add value l).
Proof. apply sorted_ordered. Qed.

Lemma pvector_remove_elem (value : A) l :
  value ∈ l ->
  exists l', pvector_remove value l = Ok l' /\ l ≡ₚ value :: l'.
Proof.
  induction l as [|x xs IH]; intros Hin; [by apply elem_of_nil in Hin|].
  simpl. destruct (decide (x = value)) as [->|Hne]; [by eexists|].
  apply elem_of_cons in Hin as [?|Hin]; [congruence|].
  destruct (IH Hin) as (l' & -> & Hperm). simpl.
  eexists. split; [done|]. rewrite Hperm. apply Permutation_swap.
Qed.

Lemma pvector_remove_absent (value : A) l :
  value ∉ l ->
  pvector_remove value l = Raise (ValueError "list.remove(x): x not in list").
Proof.
  induction l as [|x xs IH]; intros Hin; [done|].
  simpl. apply not_elem_of_cons in Hin as [Hne Hin].
  destruct (decide (x = value)) as [?|_]; [congruence|].
  by rewrite IH.
Qed.

(** The loop returns the first element of the stored sequence that carries
    the name. *)
Lemma first_named_filter (name : string) l :
  first_named name l =
  match filter (fun obj => name_of obj = name) l with
  | obj :: _ => Ok obj
  | [] => Raise (KeyError (RStr name))
  end.
Proof.
  induction l as [|x xs IH]; simpl; [done|].
  rewrite filter_cons. unfold name_of at 1.
  by destruct (decide (ObjectMeta.name (metadata x) = name)).
Qed.

Lemma first_named_absent (name : string) l :
  Forall (fun obj => name_of obj <> name) l ->
  first_named name l = Raise (KeyError (RStr name)).
Proof.
  induction 1 as [|x xs Hx _ IH]; simpl; [done|].
  by destruct (decide (ObjectMeta.name (metadata x) = name)).
Qed.

Lemma first_named_present (name : string) l :
  Exists (fun obj => name_of obj = name) l ->
  exists obj, first_named name l = Ok obj /\ obj ∈ l /\ name_of obj = name.
Proof.
  induction l as [|x xs IH]; intros Hex; [by apply Exists_nil in Hex|].
  simpl. destruct (decide (ObjectMeta.name (metadata x) = name)) as [Hx|Hx].
  - exists x. split_and!; [done|apply list_elem_of_here|done].
  - apply Exists_cons in Hex as [?|Hex]; [done|].
    destruct (IH Hex) as (obj & ? & ? & ?).
    exists obj. split_and!; [done|by apply list_elem_of_further|done].
Qed.

Lemma first_named_ok (name : string) l (obj : A) :
  first_named name l = Ok obj -> obj ∈ l /\ name_of obj = name.
Proof.
  induction l as [|x xs IH]; simpl; [done|].
  destruct (decide (ObjectMeta.name (metadata x) = name)) as [Hx|Hx].
  - intros [= ->]. split; [apply list_elem_of_here|done].
  - intros [? ?]%IH. split; [by apply list_elem_of_further|done].
Qed.

(** In an ordered sequence the loop's answer is least among its namesakes. *)
Lemma first_named_least (name : string) l (obj m : A) :
  ordered object_sort_key l ->
  first_named name l = Ok obj -> m ∈ l -> name_of m = name ->
  key_le (object_sort_key obj) (object_sort_key m).
Proof.
  induction l as [|x xs IH]; simpl; intros Hord Hf Hm Hn; [done|].
  destruct (decide (ObjectMeta.name (metadata x) = name)) as [Hx|Hx].
  - injection Hf as ->. by eapply ordered_head_le.
  - apply elem_of_cons in Hm as [->|Hm]; [done|].
    eapply IH; eauto using ordered_tail.
Qed.

End collection_facts.

(** ** Collections: what [add], [replace] and [item_by_name] guarantee *)
Section collection_claims.
Context {A : Type} `{HasMetadata A} `{EqDecision A}.

Implicit Types (l : list A) (C : _List.t A).

Lemma key_le_same_name (a b : A) :
  name_of a = name_of b ->
  key_le (object_sort_key a) (object_sort_key b)
  <-> cmp_optional (namespace_of a) (namespace_of b) <> Gt.
Proof.
  unfold name_of, namespace_of, key_le, key_leb, cmp_key, object_sort_key.
  simpl. intros ->.
  destruct (cmp_optional _ _); rewrite ?string_compare_refl; naive_solver.
Qed.

Lemma replace_length C (old new : A) :
  old ∈ _List.items C ->
  exists C', _List.replace C old new = Ok C'
    /\ List.length (_List.items C') = List.length (_List.items C).
Proof.
  intros Hin. unfold _List.replace, remove.
  destruct (pvector_remove_elem old _ Hin) as (l' & -> & Hperm). simpl.
  eexists. split; [done|]. simpl.
  by rewrite add_length, Hperm.
Qed.

(** Sorted order is what every [add] and every [replace] leaves behind. *)
Lemma replace_ordered C (old new : A) (C' : _List.t A) :
  _List.replace C old new = Ok C' ->
  ordered object_sort_key (_List.items C').
Proof.
  unfold _List.replace, remove.
  destruct (pvector_remove old (_List.items C)) as [l'|e]; [|done].
  intros [= <-]. apply add_ordered.
Qed.

(** C2 (as amended).  Two [add]s grow a collection by exactly two members,
    so the result has exactly two items when the collection was empty, and
    after each [add] the member sequence is ordered by (namespace, name),
    no namespace first; the members are those of before and the two added.
    This holds whether or not the two names differ. *)
Theorem add_add_size_and_order C (a b : A) :
  let C1 := _List.add C a in
  let C2 := _List.add C1 b in
  List.length (_List.items C2) = (List.length (_List.items C) + 2)%nat
  /\ ordered object_sort_key (_List.items C1)
  /\ ordered object_sort_key (_List.items C2)
  /\ _List.items C2 ≡ₚ b :: a :: _List.items C.
Proof.
  simpl. split_and!.
  - rewrite !add_length. lia.
  - apply add_ordered.
  - apply add_ordered.
  - by rewrite !add_perm.
Qed.

(** C4.  When [old] is no member of the collection, the removal raises
    (the [ValueError] of [pvector.remove]), [replace] raises that very
    exception, and so returns no collection. *)
Theorem replace_not_member C (old new : A) :
  old ∉ _List.items C ->
  remove old (_List.items C)
    = Raise (ValueError "list.remove(x): x not in list")
  /\ _List.replace C old new
    = Raise (ValueError "list.remove(x): x not in list").
Proof.
  intros Hout. unfold _List.replace, remove.
  by rewrite (pvector_remove_absent old _ Hout).
Qed.

(** C5.  When no member carries the name, [item_by_name] raises
    [KeyError(name)]; when some member does, it returns a member of the
    collection whose name is the one asked for. *)
Theorem item_by_name_spec C (name : string) :
  (Forall (fun obj => name_of obj <> name) (_List.items C) ->
   _List.item_by_name C name = Raise (KeyError (RStr name)))
  /\ (Exists (fun obj => name_of obj = name) (_List.items C) ->
      exists obj, _List.item_by_name C name = Ok obj
        /\ obj ∈ _List.items C /\ name_of obj = name).
Proof.
  split.
  - apply first_named_absent.
  - apply first_named_present.
Qed.

(** C9.  The lookup looks at names only.  In a collection kept in sorted
    order that holds [a] and [b] under one name, [a] in the namespace that
    sorts first: the answer for that name is a namesake whose namespace
    sorts no later than any other namesake's, it is [a] itself when [a] and
    [b] are the only two, and no name whatever makes the lookup return
    [b]. *)
Theorem item_by_name_ignores_namespace C (a b : A) :
  ordered object_sort_key (_List.items C) ->
  a ∈ _List.items C -> b ∈ _List.items C ->
  name_of a = name_of b ->
  cmp_optional (namespace_of a) (namespace_of b) = Lt ->
  (exists r, _List.item_by_name C (name_of a) = Ok r
     /\ r ∈ _List.items C
     /\ name_of r = name_of a
     /\ (forall m, m ∈ _List.items C -> name_of m = name_of a ->
           cmp_optional (namespace_of r) (namespace_of m) <> Gt)
     /\ ((forall m, m ∈ _List.items C -> name_of m = name_of a ->
            m = a \/ m = b) -> r = a))
  /\ (forall name, _List.item_by_name C name <> Ok b).
Proof.
  intros Hord Ha Hb Hname Hlt.
  assert (Hleast : forall r, _List.item_by_name C (name_of a) = Ok r ->
            forall m, m ∈ _List.items C -> name_of m = name_of a ->
              cmp_optional (namespace_of r) (namespace_of m) <> Gt).
  { intros r Hr m Hm Hmn.
    destruct (first_named_ok _ _ _ Hr) as [_ Hrn].
    apply key_le_same_name; [congruence|].
    by eapply first_named_least. }
  assert (Hnotb : forall r, _List.item_by_name C (name_of a) = Ok r -> r <> b).
  { intros r Hr ->. specialize (Hleast b Hr a Ha eq_refl).
    rewrite cmp_optional_antisym, Hlt in Hleast. by apply Hleast. }
  split.
  - destruct (first_named_present (name_of a) (_List.items C))
      as (r & Hr & Hrin & Hrn).
    { apply Exists_exists. by exists a. }
    exists r. split_and!; try done.
    + by apply Hleast.
    + intros Honly. destruct (Honly r Hrin Hrn) as [->| ->]; [done|].
      by destruct (Hnotb b Hr).
  - intros name Hb'. destruct (first_named_ok _ _ _ Hb') as [_ Hbn].
    rewrite <- Hbn, <- Hname in Hb'. by destruct (Hnotb b Hb').
Qed.

End collection_claims.

(** ** Concrete instances for the collection claims *)

(** C2: the claim as written fails on a collection that is not empty: adding
    two members with distinct names to a one-member collection gives three
    items, not two. *)
Lemma add_add_not_two :
  name_of sample.x_in_b <> name_of sample.y_in_a
  /\ List.length
       (_List.items (_List.add (_List.add sample.only_x sample.x_in_b)
                       sample.y_in_a)) = 3%nat.
Proof. split; [discriminate | reflexivity]. Qed.

(** C3: the claim as written fails when another member carries the same
    name in a namespace that sorts earlier: [old] is a member, [new] has its
    name, the replacement succeeds, and the lookup still answers with the
    namesake. *)
Lemma replace_shadowed_by_namesake :
  sample.x_in_b ∈ _List.items sample.both_x
  /\ name_of sample.x_in_b' = name_of sample.x_in_b
  /\ exists C',
       _List.replace sample.both_x sample.x_in_b sample.x_in_b' = Ok C'
       /\ _List.item_by_name C' "x" = Ok sample.x_in_a
       /\ _List.item_by_name C' "x" <> Ok sample.x_in_b'.
Proof.
  split; [|split].
  - apply list_elem_of_In. vm_compute. auto.
  - reflexivity.
  - eexists. split; [reflexivity|]. split; [reflexivity|]. discriminate.
Qed.

Lemma replace_not_member_witness :
  (sample.x_in_b ∉ _List.items sample.x_and_y)
  /\ remove sample.x_in_b (_List.items sample.x_and_y)
     = Raise (ValueError "list.remove(x): x not in list")
  /\ _List.replace sample.x_and_y sample.x_in_b sample.x_in_b'
     = Raise (ValueError "list.remove(x): x not in list").
Proof.
  assert (Hout : sample.x_in_b ∉ _List.items sample.x_and_y).
  { intros Hin%list_elem_of_In. vm_compute in Hin.
    destruct Hin as [Hin|[Hin|[]]]; discriminate. }
  split; [exact Hout|].
  exact (replace_not_member sample.x_and_y sample.x_in_b sample.x_in_b' Hout).
Defined.

Lemma item_by_name_spec_witness :
  (Forall (fun obj => name_of obj <> "z") (_List.items sample.x_and_y)
   /\ _List.item_by_name sample.x_and_y "z" = Raise (KeyError (RStr "z")))
  /\ (Exists (fun obj => name_of obj = "y") (_List.items sample.x_and_y)
      /\ exists obj, _List.item_by_name sample.x_and_y "y" = Ok obj
           /\ obj ∈ _List.items sample.x_and_y /\ name_of obj = "y").
Proof.
  assert (Hno : Forall (fun obj : ConfigMap.t => name_of obj <> "z")
                  (_List.items sample.x_and_y)).
  { repeat constructor; discriminate. }
  assert (Hyes : Exists (fun obj : ConfigMap.t => name_of obj = "y")
                   (_List.items sample.x_and_y)).
  { apply Exists_cons_tl, Exists_cons_hd. reflexivity. }
  split; split; try assumption.
  - exact (proj1 (item_by_name_spec sample.x_and_y "z") Hno).
  - exact (proj2 (item_by_name_spec sample.x_and_y "y") Hyes).
Defined.

Lemma item_by_name_ignores_namespace_witness :
  ordered object_sort_key (_List.items sample.both_x)
  /\ _List.item_by_name sample.both_x "x" = Ok sample.x_in_a
  /\ forall name, _List.item_by_name sample.both_x name <> Ok sample.x_in_b.
Proof.
  assert (Hord : ordered object_sort_key (_List.items sample.both_x)).
  { apply add_ordered. }
  assert (Ha : sample.x_in_a ∈ _List.items sample.both_x).
  { apply list_elem_of_In. vm_compute. auto. }
  assert (Hb : sample.x_in_b ∈ _List.items sample.both_x).
  { apply list_elem_of_In. vm_compute. auto. }
  destruct (item_by_name_ignores_namespace sample.both_x
              sample.x_in_a sample.x_in_b Hord Ha Hb eq_refl eq_refl)
    as [(r & Hr & _ & _ & _ & Honly) Hnever].
  split; [exact Hord|]. split; [|exact Hnever].
  transitivity (Ok r); [exact Hr|]. f_equal. apply Honly.
  intros m Hm%list_elem_of_In _. vm_compute in Hm.
  destruct Hm as [<-|[<-|[]]]; auto.
Defined.

(** ** The raw codec *)
Section codec.
Context (schema : Swagger).

Lemma mandatory_string_lookup (d : gmap string raw) (field s : string) :
  d !! field = Some (RStr s) -> mandatory_string d field = Ok s.
Proof. unfold mandatory_string. by intros ->. Qed.

Lemma optional_string_lookup (d : gmap string raw) (field : string)
    (o : option string) :
  d !! field = Some (raw_of_option o) -> optional_string d field = Ok o.
Proof. unfold optional_string. intros ->. by destruct o. Qed.

Lemma optional_object_lookup {A : Type} `{PClass A} (d d' : gmap string raw)
    (field : string) (a : A) :
  d !! field = Some (RDict d') -> create d' = Ok a ->
  optional_object d field = Ok (Some a).
Proof. unfold optional_object. by intros -> ->. Qed.

Lemma optional_object_none {A : Type} `{PClass A} (d : gmap string raw)
    (field : string) :
  d !! field = Some RNone -> optional_object (A := A) d field = Ok None.
Proof. unfold optional_object. by intros ->. Qed.

Lemma mandatory_object_lookup {A : Type} `{PClass A} (d d' : gmap string raw)
    (field : string) (a : A) :
  d !! field = Some (RDict d') -> create d' = Ok a ->
  mandatory_object d field = Ok a.
Proof. unfold mandatory_object. by intros -> ->. Qed.

Lemma ObjectMeta_roundtrip (m : ObjectMeta.t) :
  ObjectMeta.create (ObjectMeta.serialize m) = Ok m.
Proof.
  destruct m as [n ns u rv]. unfold ObjectMeta.create.
  rewrite (mandatory_string_lookup _ "name" n) by reflexivity.
  rewrite (optional_string_lookup _ "namespace" ns) by reflexivity.
  rewrite (optional_string_lookup _ "uid" u) by reflexivity.
  rewrite (optional_string_lookup _ "resourceVersion" rv) by reflexivity.
  reflexivity.
Qed.

Lemma NamespaceStatus_roundtrip (s : NamespaceStatus.t) :
  NamespaceStatus.create (NamespaceStatus.serialize s) = Ok s.
Proof.
  destruct s as [p]. unfold NamespaceStatus.create.
  rewrite (optional_string_lookup _ "phase" p) by reflexivity.
  reflexivity.
Qed.

Lemma Namespace_roundtrip (o : Namespace.t) :
  Namespace.create (Namespace.serialize o) = Ok o.
Proof.
  destruct o as [m s]. unfold Namespace.create.
  rewrite (mandatory_object_lookup _ (ObjectMeta.serialize m) "metadata" m)
    by (reflexivity || apply ObjectMeta_roundtrip).
  destruct s as [s|].
  - rewrite (optional_object_lookup _ (NamespaceStatus.serialize s)
               "status" s)
      by (reflexivity || apply NamespaceStatus_roundtrip).
    reflexivity.
  - rewrite (optional_object_none _ "status") by reflexivity.
    reflexivity.
Qed.

Lemma ConfigMap_roundtrip (o : ConfigMap.t) :
  ConfigMap.create (ConfigMap.serialize o) = Ok o.
Proof.
  destruct o as [m]. unfold ConfigMap.create.
  rewrite (mandatory_object_lookup _ (ObjectMeta.serialize m) "metadata" m)
    by (reflexivity || apply ObjectMeta_roundtrip).
  reflexivity.
Qed.

Lemma List_roundtrip {A : Type} `{PClass A} (o : _List.t A) :
  (forall a : A, create (serialize a) = Ok a) ->
  _List.create (_List.serialize o) = Ok o.
Proof.
  intros Hitem. destruct o as [l].
  assert (Hl : mapM_result _List.create_item
                 ((fun obj => RDict (serialize obj)) <$> l) = Ok l).
  { induction l as [|x xs IH]; [done|].
    rewrite fmap_cons. cbn [mapM_result _List.create_item].
    by rewrite Hitem, IH. }
  unfold _List.create.
  change (check_fields "List" ["items"] _) with (Ok ()).
  cbn [mbind result_bind].
  change (_ !! "items") with
    (Some (RList ((fun obj => RDict (serialize obj)) <$> l))).
  cbv beta iota. by rewrite Hl.
Qed.

(** What the two functions add to [serialize] and [create]: the two
    discriminators go in, select the class, and come out again. *)
Lemma from_raw_tagged (d : gmap string raw) (k : string) (cls : pclass)
    (kind_hint version_hint : raw) :
  d !! "kind" = None -> d !! "apiVersion" = None ->
  getattr (v1 schema) (RStr k) = Ok (AClass cls) ->
  iobject_from_raw schema
    (dict_update d {[ "kind" := RStr k; "apiVersion" := RStr "v1" ]})
    kind_hint version_hint
  = class_create cls d.
Proof.
  intros Hk Hv Hcls. unfold iobject_from_raw, dict_get, dict_update, discard.
  assert (Hkind : ({[ "kind" := RStr k; "apiVersion" := RStr "v1" ]} ∪ d)
                    !! "kind" = Some (RStr k)).
  { apply lookup_union_Some_l. reflexivity. }
  assert (Hver : ({[ "kind" := RStr k; "apiVersion" := RStr "v1" ]} ∪ d)
                   !! "apiVersion" = Some (RStr "v1")).
  { apply lookup_union_Some_l. reflexivity. }
  rewrite Hkind, Hver. cbn [default from_option id].
  change (getitem (_versions schema) (RStr "v1")) with (Ok (v1 schema)).
  cbn [mbind result_bind]. rewrite Hcls.
  cbn [mbind result_bind attribute_create]. f_equal.
  apply map_eq. intros i.
  destruct (decide (i = "apiVersion")) as [->|Hi1];
    [by rewrite lookup_delete_eq|].
  rewrite lookup_delete_ne by done.
  destruct (decide (i = "kind")) as [->|Hi2];
    [by rewrite lookup_delete_eq|].
  rewrite lookup_delete_ne by done.
  rewrite lookup_union_r; [done|].
  rewrite lookup_insert_ne by done. by apply lookup_singleton_ne.
Qed.

(** C1.  Whatever the schema document holds and whatever hints are passed,
    decoding the raw form of a [Namespace], a [ConfigMap] or one of their
    list classes gives back the value that was encoded. *)
Theorem iobject_roundtrip (v : iobject) (kind_hint version_hint : raw) :
  iobject_from_raw schema (iobject_to_raw v) kind_hint version_hint
  = Ok (PIObject v).
Proof.
  unfold iobject_to_raw, apiVersion.
  destruct v as [o|o|o|o]; simpl.
  - rewrite (from_raw_tagged _ _ Namespace_class) by reflexivity.
    simpl. by rewrite Namespace_roundtrip.
  - rewrite (from_raw_tagged _ _ ConfigMap_class) by reflexivity.
    simpl. by rewrite ConfigMap_roundtrip.
  - rewrite (from_raw_tagged _ _ NamespaceList_class) by reflexivity.
    simpl.
    by rewrite (List_roundtrip (H := Namespace_pclass) o Namespace_roundtrip).
  - rewrite (from_raw_tagged _ _ ConfigMapList_class) by reflexivity.
    simpl.
    by rewrite (List_roundtrip (H := ConfigMap_pclass) o ConfigMap_roundtrip).
Qed.

Lemma raw_v1_or_not (r : raw) : r = RStr "v1" \/ r <> RStr "v1".
Proof.
  destruct r as [| | |s| |]; try (by right).
  destruct (decide (s = "v1")) as [->|Hne]; [by left|right; congruence].
Qed.

Lemma getitem_versions_other (apiVersion : raw) :
  apiVersion <> RStr "v1" ->
  getitem (_versions schema) apiVersion = Raise (KeyError apiVersion).
Proof.
  intros Hne. destruct apiVersion as [| | |s| |]; try done.
  unfold getitem, _versions.
  rewrite lookup_singleton_ne; [done|congruence].
Qed.

(** A kind that names an attribute every instance has reaches [create] on
    something that is no class. *)
Lemma from_raw_instance_attribute (k : string) (kind_hint version_hint : raw) :
  k ∈ instance_attributes ->
  iobject_from_raw schema {[ "kind" := RStr k; "apiVersion" := RStr "v1" ]}
    kind_hint version_hint
  = Raise (AttributeError ("no attribute 'create' on " +:+ k)).
Proof.
  intros Hk.
  repeat (apply elem_of_cons in Hk as [->|Hk]; [reflexivity|]).
  by apply elem_of_nil in Hk.
Qed.

(** C6.  The code at the input where it departs from the claim: a record
    that names the registered version ["v1"] and no kind, decoded without
    hints.  The pair is not in the catalog, whatever the schema holds, and
    the failure is the [TypeError] of [getattr] on a name that is no string,
    not the [KeyError] the docstring promises for an unsupported kind. *)
Theorem from_raw_without_kind :
  ~ registered schema
      (dict_get {[ "apiVersion" := RStr "v1" ]} "apiVersion" RNone)
      (dict_get {[ "apiVersion" := RStr "v1" ]} "kind" RNone)
  /\ iobject_from_raw schema {[ "apiVersion" := RStr "v1" ]} RNone RNone
     = Raise (TypeError "getattr(): attribute name must be string").
Proof.
  split; [|reflexivity].
  intros (_ & k & Hk & _). discriminate Hk.
Qed.

End codec.

(** ** Collection paths *)

(** C7.  With ["extensions"] as the group of ["v1beta1"]: a [v1] ["Pod"]
    instance in namespace ["ns"] lives under [api/v1/namespaces/ns/pods],
    the bare [v1] type under [api/v1/pods], and any kind of ["v1beta1"]
    without a namespace, bare type or instance, under
    [apis/extensions/v1beta1/] followed by its lower-cased name and ["s"],
    ["mythicals"] for ["Mythical"]. *)
Theorem collection_location_paths (group : string -> string) :
  group "v1beta1" = "extensions" ->
  _network.collection_location group (_network.Instance "v1" "Pod" (Some "ns"))
    = ["api"; "v1"; "namespaces"; "ns"; "pods"]
  /\ _network.collection_location group (_network.BareType "v1" "Pod")
    = ["api"; "v1"; "pods"]
  /\ (forall kind : string,
        _network.collection_location group (_network.BareType "v1beta1" kind)
          = ["apis"; "extensions"; "v1beta1"; _network.lower kind +:+ "s"]
        /\ _network.collection_location group
             (_network.Instance "v1beta1" kind None)
          = ["apis"; "extensions"; "v1beta1"; _network.lower kind +:+ "s"])
  /\ _network.collection_location group (_network.BareType "v1beta1" "Mythical")
    = ["apis"; "extensions"; "v1beta1"; "mythicals"].
Proof.
  intros Hgroup. unfold _network.collection_location. simpl.
  rewrite Hgroup. split_and!; try reflexivity.
  intros kind. split; reflexivity.
Qed.

Lemma collection_location_paths_witness :
  (fun _ : string => "extensions") "v1beta1" = "extensions"
  /\ _network.collection_location (fun _ => "extensions")
       (_network.BareType "v1beta1" "Mythical")
     = ["apis"; "extensions"; "v1beta1"; "mythicals"].
Proof.
  split; [reflexivity|].
  apply (collection_location_paths (fun _ => "extensions")). reflexivity.
Defined.

(** ** Filling in the defaults of a namespace *)

(** C10.  Whatever the value held, the result carries the identifier drawn
    by this call and the Active status; it is the same result as for a value
    that differs in identifier and status only; and name, namespace and
    resource version are those of the input. *)
Theorem fill_defaults_frame (self : Namespace.t) (urandom : Z) :
  let out := Namespace.fill_defaults self urandom in
  ObjectMeta.uid (Namespace.metadata out)
    = Some (uuid.str (uuid.uuid4 urandom))
  /\ Namespace.status out = Some NamespaceStatus.active
  /\ ObjectMeta.name (Namespace.metadata out)
     = ObjectMeta.name (Namespace.metadata self)
  /\ ObjectMeta.namespace (Namespace.metadata out)
     = ObjectMeta.namespace (Namespace.metadata self)
  /\ ObjectMeta.resourceVersion (Namespace.metadata out)
     = ObjectMeta.resourceVersion (Namespace.metadata self)
  /\ (forall (other : Namespace.t),
        ObjectMeta.name (Namespace.metadata other)
          = ObjectMeta.name (Namespace.metadata self) ->
        ObjectMeta.namespace (Namespace.metadata other)
          = ObjectMeta.namespace (Namespace.metadata self) ->
        ObjectMeta.resourceVersion (Namespace.metadata other)
          = ObjectMeta.resourceVersion (Namespace.metadata self) ->
        Namespace.fill_defaults other urandom = out).
Proof.
  simpl. split_and!; try reflexivity.
  intros [[n ns u rv] s] Hn Hns Hrv. simpl in *. subst.
  reflexivity.
Qed.

(** ** Version-4 UUIDs and their text *)
Section uuid_facts.

Lemma string_length_append (s1 s2 : string) :
  String.length (s1 +:+ s2) = (String.length s1 + String.length s2)%nat.
Proof. induction s1 as [|c s1 IH]; simpl; [done|]. by rewrite IH. Qed.

Lemma hex_length (w : nat) (n : Z) : String.length (uuid.hex w n) = w.
Proof.
  revert n. induction w as [|w IH]; intros n; simpl; [done|].
  rewrite string_length_append, IH. simpl. lia.
Qed.

(** The digit at a position is the nibble of that weight. *)
Lemma hex_get (w : nat) (n : Z) (i : nat) :
  (i < w)%nat ->
  String.get i (uuid.hex w n)
  = Some (uuid.hexdigit (Z.land (Z.shiftr n (4 * Z.of_nat (w - 1 - i))) 15)).
Proof.
  revert n. induction w as [|w IH]; intros n Hi; [lia|]. simpl.
  destruct (decide (i < w)%nat) as [Hlt|Hge].
  - rewrite <- append_correct1 by (rewrite hex_length; lia).
    rewrite IH by lia. rewrite Z.shiftr_shiftr by lia.
    do 4 f_equal. lia.
  - assert (i = w) as -> by lia.
    pose proof (append_correct2 (uuid.hex w (Z.shiftr n 4))
                  (String (uuid.hexdigit (Z.land n 15)) "") 0) as Hget.
    rewrite hex_length in Hget. simpl in Hget. rewrite <- Hget.
    replace (w - 0 - w)%nat with 0%nat by lia. simpl.
    by rewrite Z.shiftr_0_r.
Qed.

Lemma unhex_from_append (acc : Z) (s1 s2 : string) :
  uuid.unhex_from acc (s1 +:+ s2)
  = uuid.unhex_from (uuid.unhex_from acc s1) s2.
Proof. revert acc. induction s1 as [|c s1 IH]; intros acc; simpl; eauto. Qed.

Lemma digit_value_hexdigit (d : Z) :
  0 <= d < 16 -> uuid.digit_value (uuid.hexdigit d) = d.
Proof.
  intros Hd.
  assert (d = 0 \/ d = 1 \/ d = 2 \/ d = 3 \/ d = 4 \/ d = 5 \/ d = 6
          \/ d = 7 \/ d = 8 \/ d = 9 \/ d = 10 \/ d = 11 \/ d = 12
          \/ d = 13 \/ d = 14 \/ d = 15) as Hcases by lia.
  repeat (destruct Hcases as [->|Hcases]; [reflexivity|]).
  by subst.
Qed.

Lemma unhex_from_hex (w : nat) (acc n : Z) :
  uuid.unhex_from acc (uuid.hex w n)
  = acc * 16 ^ Z.of_nat w + n mod 16 ^ Z.of_nat w.
Proof.
  revert acc n. induction w as [|w IH]; intros acc n.
  - simpl. rewrite Z.mod_1_r. lia.
  - cbn [uuid.hex]. rewrite unhex_from_append, IH. cbn [uuid.unhex_from].
    change 15 with (Z.ones 4). rewrite Z.land_ones by lia.
    rewrite Z.shiftr_div_pow2 by lia.
    rewrite digit_value_hexdigit by (apply Z.mod_pos_bound; lia).
    rewrite Nat2Z.inj_succ, Z.pow_succ_r by lia.
    change (2 ^ 4) with 16.
    rewrite (Z.rem_mul_r n 16 (16 ^ Z.of_nat w)) by lia.
    lia.
Qed.

Lemma unhex_hex32 (n : Z) : uuid.unhex (uuid.hex 32 n) = n mod 2 ^ 128.
Proof. unfold uuid.unhex. rewrite unhex_from_hex. reflexivity. Qed.

End uuid_facts.

Section uuid_text.

(** A string of thirty-two characters, spelled out. *)
Ltac explode h Hh :=
  do 32 (destruct h as [|? h]; [discriminate Hh|]);
  destruct h; [|discriminate Hh]; clear Hh.

Lemma str_length (n : Z) : String.length (uuid.str n) = 36%nat.
Proof.
  unfold uuid.str. generalize (hex_length 32 n).
  generalize (uuid.hex 32 n). intros h Hh. explode h Hh. reflexivity.
Qed.

Lemma str_dashes (n : Z) :
  String.get 8 (uuid.str n) = Some "-"%char
  /\ String.get 13 (uuid.str n) = Some "-"%char
  /\ String.get 18 (uuid.str n) = Some "-"%char
  /\ String.get 23 (uuid.str n) = Some "-"%char.
Proof.
  unfold uuid.str. generalize (hex_length 32 n).
  generalize (uuid.hex 32 n). intros h Hh. explode h Hh. by repeat split.
Qed.

Lemma str_get_14 (n : Z) :
  String.get 14 (uuid.str n) = String.get 12 (uuid.hex 32 n).
Proof.
  unfold uuid.str. generalize (hex_length 32 n).
  generalize (uuid.hex 32 n). intros h Hh. explode h Hh. reflexivity.
Qed.

Lemma undash_str (n : Z) : uuid.undash (uuid.str n) = uuid.hex 32 n.
Proof.
  unfold uuid.str. generalize (hex_length 32 n).
  generalize (uuid.hex 32 n). intros h Hh. explode h Hh. reflexivity.
Qed.

(** The text determines the integer, up to its low 128 bits. *)
Lemma str_inj (n1 n2 : Z) :
  uuid.str n1 = uuid.str n2 -> n1 mod 2 ^ 128 = n2 mod 2 ^ 128.
Proof.
  intros Heq. rewrite <- !unhex_hex32, <- !undash_str. by rewrite Heq.
Qed.

End uuid_text.

Section uuid_bits.

Lemma testbit_high (c i : Z) :
  0 <= c < 2 ^ 128 -> 128 <= i -> Z.testbit c i = false.
Proof.
  intros [Hc0 Hc] Hi.
  destruct (decide (c = 0)) as [->|Hne]; [apply Z.bits_0|].
  apply Z.bits_above_log2; [done|].
  assert (Z.log2 c < 128); [|lia].
  apply Z.log2_lt_pow2; lia.
Qed.

Lemma bits_below_128 (P : Z -> Prop) :
  (forall n : nat, (n < 128)%nat -> P (Z.of_nat n)) ->
  forall i, 0 <= i < 128 -> P i.
Proof.
  intros HP i Hi. rewrite <- (Z2Nat.id i) by lia. apply HP. lia.
Qed.

(** Closed side conditions on the masks. *)
Ltac mask_range := split; [discriminate | reflexivity].

(** One bit of an identity between masked words: above bit 127 everything
    is zero, below it the masks are evaluated bit by bit. *)
Ltac by_bits x :=
  let i := fresh "i" in
  let Hi := fresh "Hi" in
  let Hlt := fresh "Hlt" in
  let n := fresh "n" in
  let Hn := fresh "Hn" in
  let b := fresh "b" in
  apply Z.bits_inj'; intros i Hi;
  repeat first
    [ rewrite Z.lor_spec | rewrite Z.land_spec
    | rewrite Z.lnot_spec by exact Hi
    | rewrite (Z.testbit_mod_pow2 _ 128 i) by discriminate ];
  destruct (Z.ltb_spec i 128) as [Hlt|Hlt];
  [ generalize (Z.testbit x i); revert i Hi Hlt;
    match goal with
    | |- forall i, 0 <= i -> i < 128 -> @?Q i =>
        intros i Hi Hlt; apply (bits_below_128 Q); [|lia]
    end;
    intros n Hn;
    do 128 (destruct n as [|n]; [intros b; destruct b; reflexivity|]);
    lia
  | repeat match goal with
      | |- context [Z.testbit ?c i] =>
          rewrite (testbit_high c i) by (first [mask_range | lia])
      end;
    reflexivity ].

Lemma uuid4_kept_bits (urandom : Z) :
  uuid.uuid4 urandom
  = Z.lor (uuid.kept_bits urandom)
      (Z.lor (Z.shiftl 0x8000 48) (Z.shiftl 4 76)).
Proof.
  unfold uuid.uuid4, uuid.UUID, uuid.kept_bits, uuid.of_bytes16.
  by_bits urandom.
Qed.

Lemma kept_bits_uuid4 (urandom : Z) :
  uuid.kept_bits urandom
  = Z.land (uuid.uuid4 urandom mod 2 ^ 128)
      (Z.lnot (Z.lor (Z.shiftl 0xc000 48) (Z.shiftl 0xf000 64))).
Proof.
  unfold uuid.uuid4, uuid.UUID, uuid.kept_bits, uuid.of_bytes16.
  by_bits urandom.
Qed.

End uuid_bits.

Section uuid_version.

Lemma uuid4_version_nibble (urandom : Z) :
  Z.land (Z.shiftr (uuid.uuid4 urandom) 76) 15 = 4.
Proof.
  apply Z.bits_inj'. intros i Hi.
  rewrite Z.land_spec, Z.shiftr_spec by exact Hi.
  destruct (Z.ltb_spec i 4) as [Hlt|Hge].
  - unfold uuid.uuid4, uuid.UUID.
    repeat first
      [ rewrite Z.lor_spec | rewrite Z.land_spec
      | rewrite Z.lnot_spec by lia ].
    generalize (Z.testbit (uuid.of_bytes16 urandom) (i + 76)). intros b.
    assert (i = 0 \/ i = 1 \/ i = 2 \/ i = 3) as [->|[->|[->| ->]]] by lia;
      by destruct b.
  - rewrite (Z.bits_above_log2 15 i), (Z.bits_above_log2 4 i);
      [by rewrite andb_false_r|done|simpl; lia|done|simpl; lia].
Qed.

(** The fifteenth character of the text is the version digit. *)
Lemma str_version (urandom : Z) :
  String.get 14 (uuid.str (uuid.uuid4 urandom)) = Some "4"%char.
Proof.
  rewrite str_get_14, hex_get by lia.
  change (4 * Z.of_nat (32 - 1 - 12)) with 76.
  by rewrite uuid4_version_nibble.
Qed.

(** Two draws give the same text exactly when they agree on the bits that
    [uuid4] keeps. *)
Lemma str_uuid4_eq (r1 r2 : Z) :
  uuid.str (uuid.uuid4 r1) = uuid.str (uuid.uuid4 r2)
  <-> uuid.kept_bits r1 = uuid.kept_bits r2.
Proof.
  split.
  - intros Heq%str_inj. by rewrite !kept_bits_uuid4, Heq.
  - intros Heq. by rewrite !uuid4_kept_bits, Heq.
Qed.

End uuid_version.

(** C8 (as amended).  Filling in the defaults of a named namespace gives it
    an identifier that is the text of a version-4 UUID, thirty-six
    characters with the version digit in its place, and the Active status;
    two such calls give different identifiers exactly when their random
    draws differ in a bit that [uuid4] keeps, whatever the two names. *)
Theorem fill_defaults_named (name1 name2 : string) (urandom1 urandom2 : Z) :
  let out1 := Namespace.fill_defaults (Namespace.named name1) urandom1 in
  let out2 := Namespace.fill_defaults (Namespace.named name2) urandom2 in
  (exists id : string,
     ObjectMeta.uid (Namespace.metadata out1) = Some id
     /\ id = uuid.str (uuid.uuid4 urandom1)
     /\ String.length id = 36%nat
     /\ String.get 14 id = Some "4"%char)
  /\ Namespace.status out1 = Some NamespaceStatus.active
  /\ NamespaceStatus.phase NamespaceStatus.active = Some "Active"
  /\ (ObjectMeta.uid (Namespace.metadata out1)
        <> ObjectMeta.uid (Namespace.metadata out2)
      <-> uuid.kept_bits urandom1 <> uuid.kept_bits urandom2).
Proof.
  simpl. split_and!; try reflexivity.
  - eexists. split_and!; [reflexivity|reflexivity|..].
    + apply str_length.
    + apply str_version.
  - rewrite <- str_uuid4_eq. split; intros Hne Heq; apply Hne; congruence.
Qed.

(** C8: the claim as written fails when the two calls draw the same random
    bytes: two distinct named namespaces then get one and the same
    identifier. *)
Lemma fill_defaults_same_draw :
  Namespace.named "a" <> Namespace.named "b"
  /\ ObjectMeta.uid
       (Namespace.metadata
          (Namespace.fill_defaults (Namespace.named "a") 2026))
     = ObjectMeta.uid
         (Namespace.metadata
            (Namespace.fill_defaults (Namespace.named "b") 2026)).
Proof. split; [discriminate | reflexivity]. Qed.

Lemma fill_defaults_frame_witness :
  let self :=
    {| Namespace.metadata :=
         {| ObjectMeta.name := "n";
            ObjectMeta.namespace := None;
            ObjectMeta.uid := Some "set-before";
            ObjectMeta.resourceVersion := Some "3" |};
       Namespace.status := Some NamespaceStatus.terminating |} in
  let other :=
    {| Namespace.metadata :=
         {| ObjectMeta.name := "n";
            ObjectMeta.namespace := None;
            ObjectMeta.uid := None;
            ObjectMeta.resourceVersion := Some "3" |};
       Namespace.status := None |} in
  ObjectMeta.uid (Namespace.metadata (Namespace.fill_defaults self 5))
    = Some (uuid.str (uuid.uuid4 5))
  /\ Namespace.status (Namespace.fill_defaults self 5)
     = Some NamespaceStatus.active
  /\ Namespace.fill_defaults other 5 = Namespace.fill_defaults self 5.
Proof.
  intros self other.
  destruct (fill_defaults_frame self 5) as (Huid & Hstatus & _ & _ & _ & Hsame).
  split; [exact Huid|]. split; [exact Hstatus|].
  apply Hsame; reflexivity.
Defined.

(** ** The order, spelled out *)

(** Namespace first, no namespace before any namespace, then name. *)
Lemma key_le_spec (ns1 ns2 : option string) (n1 n2 : string) :
  key_le (ns1, n1) (ns2, n2)
  <-> cmp_optional ns1 ns2 = Lt
      \/ (ns1 = ns2 /\ String.leb n1 n2 = true).
Proof.
  unfold key_le, key_leb, cmp_key, String.leb. simpl.
  destruct (cmp_optional ns1 ns2) eqn:Hns.
  - apply cmp_optional_eq in Hns as ->.
    split; [by right|]. intros [?|[_ Hle]]; [done|exact Hle].
  - split; [by left|done].
  - split; [done|]. intros [?|[-> _]]; [done|].
    by rewrite cmp_optional_refl in Hns.
Qed.

Lemma no_namespace_least (ns : string) : cmp_optional None (Some ns) = Lt.
Proof. reflexivity. Qed.

(** From the empty collection, two [add]s give exactly two items. *)
Lemma add_add_of_empty {A : Type} `{HasMetadata A} (a b : A) :
  List.length
    (_List.items (_List.add (_List.add {| _List.items := [] |} a) b))
  = 2%nat.
Proof.
  simpl. by rewrite !add_length.
Qed.

(** * Further properties of the collection model *)

#[local] Open Scope list_scope.

(** ** [sorted] is the one stable sort *)
Section stable_sort.
Context {A : Type} (key : A -> sort_key).

Implicit Types (l : list A).

Lemma key_lt_le_trans (k1 k2 k3 : sort_key) :
  key_lt k1 k2 -> key_le k2 k3 -> key_lt k1 k3.
Proof.
  unfold key_lt, key_le, key_leb. intros H12.
  destruct (cmp_key k2 k3) eqn:H23; try done; intros _.
  - by apply cmp_key_eq in H23 as <-.
  - by eapply cmp_key_lt_trans.
Qed.

Lemma key_lt_irrefl (k : sort_key) : ~ key_lt k k.
Proof. unfold key_lt. by rewrite cmp_key_refl. Qed.

Lemma ordered_cons_inv (x : A) l :
  ordered key (x :: l) ->
  ordered key l /\ Forall (fun y => key_le (key x) (key y)) l.
Proof. apply StronglySorted_inv. Qed.

(** Two ordered sequences that agree, key by key, on the subsequence of
    that key are the same sequence. *)
Lemma ordered_unique l1 l2 :
  ordered key l1 -> ordered key l2 ->
  (forall k, filter (fun y => key y = k) l1 = filter (fun y => key y = k) l2) ->
  l1 = l2.
Proof.
  revert l2. induction l1 as [|x l1 IH]; intros l2 Ho1 Ho2 Hf.
  - destruct l2 as [|y l2]; [done|].
    specialize (Hf (key y)). rewrite filter_nil, filter_cons in Hf.
    by destruct (decide (key y = key y)).
  - destruct l2 as [|y l2].
    { specialize (Hf (key x)). rewrite filter_nil, filter_cons in Hf.
      by destruct (decide (key x = key x)). }
    apply ordered_cons_inv in Ho1 as [Ho1 Hx].
    apply ordered_cons_inv in Ho2 as [Ho2 Hy].
    assert (Hxy : key_le (key x) (key y)).
    { assert (Hin : y ∈ filter (fun z => key z = key y) (x :: l1)).
      { rewrite Hf. apply list_elem_of_filter. split; [done|].
        apply list_elem_of_here. }
      apply list_elem_of_filter in Hin as [_ Hin].
      apply elem_of_cons in Hin as [->|Hin]; [apply key_le_refl|].
      by eapply Forall_forall in Hx. }
    assert (Hyx : key_le (key y) (key x)).
    { assert (Hin : x ∈ filter (fun z => key z = key x) (y :: l2)).
      { rewrite <- Hf. apply list_elem_of_filter. split; [done|].
        apply list_elem_of_here. }
      apply list_elem_of_filter in Hin as [_ Hin].
      apply elem_of_cons in Hin as [->|Hin]; [apply key_le_refl|].
      by eapply Forall_forall in Hy. }
    assert (Hk : key x = key y) by by apply key_le_antisym.
    pose proof (Hf (key x)) as Hfx. rewrite !filter_cons in Hfx.
    destruct (decide (key x = key x)) as [_|?]; [|done].
    destruct (decide (key y = key x)) as [_|?]; [|done].
    injection Hfx as -> Hfx. f_equal. apply IH; [done|done|].
    intros k. destruct (decide (k = key y)) as [->|Hne]; [done|].
    specialize (Hf k). rewrite !filter_cons in Hf.
    by destruct (decide (key y = k)) as [?|_]; [congruence|].
Qed.

Lemma sorted_unique l l' :
  ordered key l' ->
  (forall k, filter (fun y => key y = k) l' = filter (fun y => key y = k) l) ->
  l' = sorted key l.
Proof.
  intros Ho Hf. apply ordered_unique; [done|apply sorted_ordered|].
  intros k. by rewrite sorted_stable.
Qed.

Lemma sorted_of_ordered l : ordered key l -> sorted key l = l.
Proof. intros Ho. symmetry. by apply sorted_unique. Qed.

(** An ordered sequence splits around any key: what is not above it, then
    what is above it. *)
Lemma ordered_split (k : sort_key) l :
  ordered key l ->
  exists l1 l2, l = (l1 ++ l2)%list
    /\ Forall (fun x => key_le (key x) k) l1
    /\ Forall (fun x => key_lt k (key x)) l2.
Proof.
  induction l as [|x l IH]; intros Ho.
  - by exists [], [].
  - apply ordered_cons_inv in Ho as [Ho Hx].
    destruct (key_leb (key x) k) eqn:Hxk.
    + destruct (IH Ho) as (l1 & l2 & -> & H1 & H2).
      exists (x :: l1), l2. split_and!; [done|by constructor|done].
    + apply key_leb_false in Hxk.
      exists [], (x :: l). split_and!; [done|constructor|].
      constructor; [done|].
      eapply Forall_impl; [exact Hx|]. simpl. intros y Hy.
      by eapply key_lt_le_trans.
Qed.

Lemma ordered_insert (x : A) l1 l2 :
  ordered key (l1 ++ l2) ->
  Forall (fun y => key_le (key y) (key x)) l1 ->
  Forall (fun y => key_le (key x) (key y)) l2 ->
  ordered key (l1 ++ x :: l2).
Proof.
  induction l1 as [|y l1 IH]; simpl; intros Ho H1 H2.
  - by constructor.
  - apply ordered_cons_inv in Ho as [Ho Hy].
    apply Forall_cons in H1 as [Hyx H1].
    constructor; [by apply IH|].
    apply Forall_app in Hy as [Hy1 Hy2].
    apply Forall_app. split; [done|]. by constructor.
Qed.

(** Order depends on the keys only. *)
Lemma ordered_same_keys l l' :
  key <$> l = key <$> l' -> ordered key l -> ordered key l'.
Proof.
  revert l'. induction l as [|x l IH]; intros [|x' l'] Hk Ho;
    try discriminate Hk; [constructor|].
  rewrite !fmap_cons in Hk. injection Hk as Hx Hk.
  apply ordered_cons_inv in Ho as [Ho Hall].
  constructor; [by apply IH|].
  rewrite <- Hx.
  apply Forall_fmap in Hall. rewrite Hk in Hall.
  rewrite Forall_fmap in Hall. exact Hall.
Qed.

End stable_sort.

(** ** The evolvers on stored sequences *)
Section evolver_facts.
Context {A : Type} `{HasMetadata A} `{EqDecision A}.

Implicit Types (l : list A) (C : _List.t A).

Lemma filter_none (P : A -> Prop) `{forall x, Decision (P x)} l :
  Forall (fun x => ~ P x) l -> filter P l = [].
Proof.
  induction 1 as [|x l Hx _ IH]; [done|].
  rewrite filter_cons. by destruct (decide (P x)).
Qed.

Lemma elem_split_first (x : A) l :
  x ∈ l -> exists l1 l2, l = (l1 ++ x :: l2)%list /\ x ∉ l1.
Proof.
  induction l as [|y l IH]; intros Hin; [by apply elem_of_nil in Hin|].
  destruct (decide (y = x)) as [->|Hne].
  - exists [], l. split; [done|]. apply not_elem_of_nil.
  - apply elem_of_cons in Hin as [?|Hin]; [congruence|].
    destruct (IH Hin) as (l1 & l2 & -> & Hout).
    exists (y :: l1), l2. split; [done|].
    apply not_elem_of_cons. split; [congruence|done].
Qed.

Lemma pvector_remove_app (value : A) l1 l2 :
  value ∉ l1 -> pvector_remove value (l1 ++ value :: l2) = Ok (l1 ++ l2).
Proof.
  induction l1 as [|x l1 IH]; intros Hout; simpl.
  - by destruct (decide (value = value)).
  - apply not_elem_of_cons in Hout as [Hne Hout].
    destruct (decide (x = value)) as [?|_]; [congruence|].
    by rewrite IH.
Qed.

Lemma ordered_delete (x : A) l1 l2 :
  ordered object_sort_key (l1 ++ x :: l2) -> ordered object_sort_key (l1 ++ l2).
Proof.
  induction l1 as [|y l1 IH]; simpl; intros Ho.
  - by apply ordered_cons_inv in Ho as [Ho _].
  - apply ordered_cons_inv in Ho as [Ho Hy].
    constructor; [by apply IH|].
    apply Forall_app in Hy as [Hy1 Hy2]. apply Forall_cons in Hy2 as [_ Hy2].
    apply Forall_app. by split.
Qed.

Lemma add_filter (k : sort_key) (value : A) l :
  filter (fun y => object_sort_key y = k) (add value l)
  = (filter (fun y => object_sort_key y = k) l
     ++ if decide (object_sort_key value = k) then [value] else [])%list.
Proof.
  unfold add. rewrite sorted_stable, filter_app, filter_cons, filter_nil.
  by destruct (decide (object_sort_key value = k)).
Qed.

(** Adding to an ordered sequence is an insertion: after everything that
    does not sort above the new value, before everything that does. *)
Lemma add_split (value : A) l :
  ordered object_sort_key l ->
  exists l1 l2, l = (l1 ++ l2)%list
    /\ add value l = (l1 ++ value :: l2)%list
    /\ Forall (fun x => key_le (object_sort_key x) (object_sort_key value)) l1
    /\ Forall (fun x => key_lt (object_sort_key value) (object_sort_key x)) l2.
Proof.
  intros Ho.
  destruct (ordered_split object_sort_key (object_sort_key value) l Ho)
    as (l1 & l2 & -> & H1 & H2).
  exists l1, l2. split_and!; try done.
  unfold add. symmetry. apply sorted_unique.
  - apply ordered_insert; [done|done|].
    eapply Forall_impl; [exact H2|]. intros x. apply key_lt_le.
  - intros k. rewrite !filter_app, !filter_cons, filter_nil.
    destruct (decide (object_sort_key value = k)) as [<-|Hne];
      [|by rewrite app_nil_r].
    rewrite (filter_none _ l2); [by rewrite !app_nil_r|].
    eapply Forall_impl; [exact H2|]. simpl. intros x Hlt Heq.
    rewrite Heq in Hlt. by apply key_lt_irrefl in Hlt.
Qed.

(** Putting a value where one with the same key was taken out. *)
Lemma add_in_place (old new : A) l1 l2 :
  ordered object_sort_key (l1 ++ old :: l2) ->
  object_sort_key new = object_sort_key old ->
  Forall (fun x => object_sort_key x <> object_sort_key old) l2 ->
  add new (l1 ++ l2) = (l1 ++ new :: l2)%list.
Proof.
  intros Ho Hkey Hl2. symmetry. unfold add. apply sorted_unique.
  - apply (ordered_same_keys object_sort_key (l1 ++ old :: l2)); [|done].
    by rewrite !fmap_app, !fmap_cons, Hkey.
  - intros k. rewrite !filter_app, !filter_cons, filter_nil.
    destruct (decide (object_sort_key new = k)) as [<-|Hne];
      [|by rewrite app_nil_r].
    rewrite (filter_none _ l2); [by rewrite !app_nil_r|].
    eapply Forall_impl; [exact Hl2|]. simpl. intros x Hx. by rewrite Hkey.
Qed.

Lemma first_named_skip (name : string) (value : A) l1 l2 :
  name_of value <> name ->
  first_named name (l1 ++ value :: l2) = first_named name (l1 ++ l2).
Proof.
  intros Hne. rewrite !first_named_filter, !filter_app, filter_cons.
  by destruct (decide (name_of value = name)).
Qed.

End evolver_facts.

(** ** What the collections guarantee beyond their size and order *)
Section collection_extras.
Context {A : Type} `{HasMetadata A} `{EqDecision A}.

Implicit Types (l : list A) (C : _List.t A).

Lemma replace_in_place_list (old new : A) l :
  ordered object_sort_key l ->
  filter (fun m => object_sort_key m = object_sort_key old) l = [old] ->
  object_sort_key new = object_sort_key old ->
  exists l1 l2, l = l1 ++ old :: l2
    /\ (remove old l ≫= fun items1 => Ok (add new items1))
       = Ok (l1 ++ new :: l2).
Proof.
  intros Ho Hone Hkey.
  assert (Hin : old ∈ l).
  { eapply (list_elem_of_filter
              (fun m => object_sort_key m = object_sort_key old)).
    rewrite Hone. apply list_elem_of_here. }
  destruct (elem_split_first old l Hin) as (l1 & l2 & -> & Hout).
  exists l1, l2. split; [done|].
  unfold remove. rewrite pvector_remove_app by done.
  cbn [mbind result_bind]. f_equal.
  apply (add_in_place old); [done|done|].
  rewrite filter_app, filter_cons in Hone.
  destruct (decide (object_sort_key old = object_sort_key old)); [|done].
  apply Forall_forall. intros x Hx Hk.
  assert (Hxin : x ∈ filter
            (fun m => object_sort_key m = object_sort_key old) l2).
  { by apply list_elem_of_filter. }
  destruct (filter (fun m => object_sort_key m = object_sort_key old) l1)
    as [|z zs].
  - simpl in Hone. injection Hone as Hone. rewrite Hone in Hxin.
    by apply elem_of_nil in Hxin.
  - simpl in Hone. injection Hone as _ Hone.
    by destruct zs.
Qed.

(** X1.  [add] is stable: among the members of one sort key the stored order
    is kept, and the added value comes after those that were there. *)
Theorem add_stable C (obj : A) (k : sort_key) :
  filter (fun m => object_sort_key m = k) (_List.items (_List.add C obj))
  = filter (fun m => object_sort_key m = k) (_List.items C)
    ++ (if decide (object_sort_key obj = k) then [obj] else []).
Proof. apply add_filter. Qed.

(** X2.  On a collection in sorted order [add] moves no member: the new
    value goes in after the members that do not sort above it and before
    those that do. *)
Theorem add_inserts C (obj : A) :
  ordered object_sort_key (_List.items C) ->
  exists l1 l2, _List.items C = l1 ++ l2
    /\ _List.items (_List.add C obj) = l1 ++ obj :: l2
    /\ Forall (fun x => key_le (object_sort_key x) (object_sort_key obj)) l1
    /\ Forall (fun x => key_lt (object_sort_key obj) (object_sort_key x)) l2.
Proof. apply add_split. Qed.

(** X3.  Two values with different sort keys can be added in either order:
    the resulting collection is the same. *)
Theorem add_comm C (a b : A) :
  object_sort_key a <> object_sort_key b ->
  _List.add (_List.add C a) b = _List.add (_List.add C b) a.
Proof.
  intros Hne. unfold _List.add. simpl. f_equal.
  apply (ordered_unique object_sort_key); [apply add_ordered..|].
  intros k. rewrite !add_filter, <- !app_assoc. f_equal.
  destruct (decide (object_sort_key a = k)) as [Ha|Ha],
           (decide (object_sort_key b = k)) as [Hb|Hb]; try done.
  congruence.
Qed.

(** X4.  The result of [add] is the only sequence that is in sorted order
    and holds, key by key, the stored members in their order followed by the
    added value. *)
Theorem add_unique C (obj : A) l' :
  ordered object_sort_key l' ->
  (forall k, filter (fun m => object_sort_key m = k) l'
             = filter (fun m => object_sort_key m = k) (_List.items C)
               ++ (if decide (object_sort_key obj = k) then [obj] else [])) ->
  l' = _List.items (_List.add C obj).
Proof.
  intros Ho Hf. apply (ordered_unique object_sort_key);
    [done|apply add_ordered|].
  intros k. simpl. by rewrite add_filter.
Qed.

(** X6.  [remove] takes out the first occurrence of the value and nothing
    else: later occurrences and all other members stay, in order. *)
Theorem remove_first_occurrence (value : A) l1 l2 :
  value ∉ l1 -> remove value (l1 ++ value :: l2) = Ok (l1 ++ l2).
Proof. apply pvector_remove_app. Qed.

(** X7.  [replace] returns a collection exactly when [old] is a member. *)
Theorem replace_ok_iff C (old new : A) :
  (exists C', _List.replace C old new = Ok C') <-> old ∈ _List.items C.
Proof.
  unfold _List.replace, remove. split.
  - intros [C' HC']. destruct (decide (old ∈ _List.items C)) as [|Hout];
      [done|].
    by rewrite (pvector_remove_absent old _ Hout) in HC'.
  - intros Hin. destruct (pvector_remove_elem old _ Hin) as (l' & -> & _).
    by eexists.
Qed.

(** X8.  A successful [replace] trades one occurrence of [old] for [new]
    and touches no other member. *)
Theorem replace_members C (old new : A) (C' : _List.t A) :
  _List.replace C old new = Ok C' ->
  old :: _List.items C' ≡ₚ new :: _List.items C.
Proof.
  unfold _List.replace, remove. intros HC'.
  destruct (decide (old ∈ _List.items C)) as [Hin|Hout];
    [|by rewrite (pvector_remove_absent old _ Hout) in HC'].
  destruct (pvector_remove_elem old _ Hin) as (l' & Hl' & Hperm).
  rewrite Hl' in HC'. injection HC' as <-. simpl.
  rewrite add_perm, Hperm. apply Permutation_swap.
Qed.

(** X9.  In a collection in sorted order where [old] is the only member
    with its sort key, replacing it by a value with the same key puts the
    new value in the very place of the old one. *)
Theorem replace_in_place C (old new : A) :
  ordered object_sort_key (_List.items C) ->
  filter (fun m => object_sort_key m = object_sort_key old) (_List.items C)
    = [old] ->
  object_sort_key new = object_sort_key old ->
  exists l1 l2, _List.items C = l1 ++ old :: l2
    /\ _List.replace C old new = Ok {| _List.items := l1 ++ new :: l2 |}.
Proof.
  intros Ho Hone Hkey.
  destruct (replace_in_place_list old new _ Ho Hone Hkey)
    as (l1 & l2 & Hl & Hr).
  exists l1, l2. split; [done|]. unfold _List.replace.
  destruct (remove old (_List.items C)) as [items1|e]; [|done].
  cbn [mbind result_bind] in *. by injection Hr as ->.
Qed.

(** X11.  [item_by_name] returns a value exactly when that value is the
    first member, in stored order, that carries the name. *)
Theorem item_by_name_first C (name : string) (obj : A) :
  _List.item_by_name C name = Ok obj
  <-> exists l1 l2, _List.items C = l1 ++ obj :: l2
        /\ name_of obj = name
        /\ Forall (fun m => name_of m <> name) l1.
Proof.
  unfold _List.item_by_name. generalize (_List.items C). intros l. split.
  - induction l as [|x l IH]; simpl; [done|].
    destruct (decide (ObjectMeta.name (metadata x) = name)) as [Hx|Hx].
    + intros [= ->]. exists [], l. by split_and!.
    + intros (l1 & l2 & -> & Hn & Hall)%IH.
      exists (x :: l1), l2. split_and!; [done|done|by constructor].
  - intros (l1 & l2 & -> & Hn & Hall).
    induction Hall as [|x l1 Hx _ IH]; simpl.
    + by destruct (decide (ObjectMeta.name (metadata obj) = name)).
    + by destruct (decide (ObjectMeta.name (metadata x) = name)).
Qed.

(** X12.  Adding a value to a collection in sorted order does not change
    what [item_by_name] answers, or raises, for any other name. *)
Theorem add_keeps_other_lookups C (obj : A) (name : string) :
  ordered object_sort_key (_List.items C) ->
  name_of obj <> name ->
  _List.item_by_name (_List.add C obj) name = _List.item_by_name C name.
Proof.
  intros Ho Hne. unfold _List.item_by_name, _List.add. simpl.
  destruct (add_split obj _ Ho) as (l1 & l2 & -> & -> & _).
  by apply first_named_skip.
Qed.

(** X13.  After adding a value whose name no member carried, looking that
    name up returns the value just added. *)
Theorem add_then_item_by_name C (obj : A) :
  Forall (fun m => name_of m <> name_of obj) (_List.items C) ->
  _List.item_by_name (_List.add C obj) (name_of obj) = Ok obj.
Proof.
  intros Hnone. unfold _List.item_by_name, _List.add. simpl.
  rewrite first_named_filter.
  assert (Hf : filter (fun m => name_of m = name_of obj)
                 (add obj (_List.items C)) ≡ₚ [obj]).
  { rewrite add_perm, filter_cons.
    destruct (decide (name_of obj = name_of obj)); [|done].
    rewrite (filter_none _ (_List.items C)); [done|].
    eapply Forall_impl; [exact Hnone|]. by simpl. }
  apply Permutation_singleton_r in Hf. by rewrite Hf.
Qed.

(** X14.  A [replace] on a collection in sorted order does not change what
    [item_by_name] answers, or raises, for a name that is neither the old
    value's nor the new one's. *)
Theorem replace_keeps_other_lookups C (old new : A) (C' : _List.t A)
    (name : string) :
  ordered object_sort_key (_List.items C) ->
  _List.replace C old new = Ok C' ->
  name_of old <> name -> name_of new <> name ->
  _List.item_by_name C' name = _List.item_by_name C name.
Proof.
  intros Ho HC' Hold Hnew. unfold _List.replace, remove in HC'.
  destruct (decide (old ∈ _List.items C)) as [Hin|Hout];
    [|by rewrite (pvector_remove_absent old _ Hout) in HC'].
  destruct (elem_split_first old _ Hin) as (l1 & l2 & Hl & Hl1).
  unfold _List.item_by_name. rewrite Hl in *.
  rewrite pvector_remove_app in HC' by done. injection HC' as <-. simpl.
  destruct (add_split new (l1 ++ l2)) as (l1' & l2' & Hl' & -> & _);
    [by eapply ordered_delete|].
  rewrite !first_named_skip by done. by rewrite Hl'.
Qed.

End collection_extras.

(** X5.  The order on sort keys is a total order: reflexive, transitive,
    antisymmetric, and any two keys are comparable. *)
Theorem sort_key_total_order :
  (forall k, key_le k k)
  /\ (forall k1 k2 k3, key_le k1 k2 -> key_le k2 k3 -> key_le k1 k3)
  /\ (forall k1 k2, key_le k1 k2 -> key_le k2 k1 -> k1 = k2)
  /\ (forall k1 k2, key_le k1 k2 \/ key_le k2 k1).
Proof.
  split_and!.
  - apply key_le_refl.
  - apply key_le_trans.
  - apply key_le_antisym.
  - apply key_le_total.
Qed.

(** X10.  Filling in the defaults of a stored namespace and replacing it
    with the result leaves the collection as it was but for that one member:
    the filled-in value stands where the namespace stood. *)
Theorem replace_fill_defaults (C : NamespaceList) (ns : Namespace.t)
    (urandom : Z) :
  ordered object_sort_key (_List.items C) ->
  filter (fun m => object_sort_key m = object_sort_key ns) (_List.items C)
    = [ns] ->
  exists l1 l2, _List.items C = l1 ++ ns :: l2
    /\ _List.replace C ns (Namespace.fill_defaults ns urandom)
       = Ok {| _List.items :=
                 l1 ++ Namespace.fill_defaults ns urandom :: l2 |}.
Proof.
  intros Ho Hone.
  destruct (replace_in_place_list ns (Namespace.fill_defaults ns urandom)
              _ Ho Hone eq_refl) as (l1 & l2 & Hl & Hr).
  exists l1, l2. split; [done|]. unfold _List.replace.
  destruct (remove ns (_List.items C)) as [items1|e]; [|done].
  cbn [mbind result_bind] in *. by injection Hr as ->.
Qed.

(** ** What the codec guarantees beyond the round trip *)
Section codec_extras.
Context (schema : Swagger).

Lemma getitem_v1 : getitem (_versions schema) (RStr "v1") = Ok (v1 schema).
Proof. reflexivity. Qed.

Lemma discard_both_absent (obj : gmap string raw) :
  obj !! "kind" = None -> obj !! "apiVersion" = None ->
  discard "apiVersion" (discard "kind" obj) = obj.
Proof.
  intros Hk Hv. unfold discard. apply map_eq. intros i.
  destruct (decide (i = "apiVersion")) as [->|Hi1];
    [by rewrite lookup_delete_eq|].
  rewrite lookup_delete_ne by done.
  destruct (decide (i = "kind")) as [->|Hi2];
    [by rewrite lookup_delete_eq|].
  by rewrite lookup_delete_ne.
Qed.

Lemma discard_both_inserted (obj : gmap string raw) (k v : raw) :
  discard "apiVersion"
    (discard "kind" (<["kind" := k]> (<["apiVersion" := v]> obj)))
  = discard "apiVersion" (discard "kind" obj).
Proof.
  unfold discard. apply map_eq. intros i.
  destruct (decide (i = "apiVersion")) as [->|Hi1];
    [by rewrite !lookup_delete_eq|].
  rewrite !(lookup_delete_ne _ "apiVersion") by done.
  destruct (decide (i = "kind")) as [->|Hi2];
    [by rewrite !lookup_delete_eq|].
  rewrite !(lookup_delete_ne _ "kind") by done.
  by rewrite !lookup_insert_ne.
Qed.

(** X15.  A hint stands in for an absent key exactly as if the record had
    carried it: decoding a record without ["kind"] and ["apiVersion"] under
    two hints is decoding the record with the hints written into it. *)
Theorem from_raw_hints_as_fields (obj : gmap string raw)
    (kind_hint version_hint kind_hint' version_hint' : raw) :
  obj !! "kind" = None -> obj !! "apiVersion" = None ->
  iobject_from_raw schema obj kind_hint version_hint
  = iobject_from_raw schema
      (<["kind" := kind_hint]> (<["apiVersion" := version_hint]> obj))
      kind_hint' version_hint'.
Proof.
  intros Hk Hv. unfold iobject_from_raw, dict_get.
  rewrite discard_both_inserted.
  rewrite Hk, Hv, lookup_insert_eq, lookup_insert_ne, lookup_insert_eq
    by done.
  reflexivity.
Qed.

(** X16.  When the record carries both keys the hints play no part. *)
Theorem from_raw_ignores_hints (obj : gmap string raw)
    (kind_hint version_hint kind_hint' version_hint' : raw) :
  is_Some (obj !! "kind") -> is_Some (obj !! "apiVersion") ->
  iobject_from_raw schema obj kind_hint version_hint
  = iobject_from_raw schema obj kind_hint' version_hint'.
Proof.
  intros [k Hk] [v Hv]. unfold iobject_from_raw, dict_get.
  by rewrite Hk, Hv.
Qed.

(** X17.  A ["kind"] key that is present wins over the hint even when its
    value is no string, [None] included: under version ["v1"] the record is
    then refused with the [TypeError] of [getattr], whatever kind hint is
    passed. *)
Theorem from_raw_kind_not_string (obj : gmap string raw)
    (r kind_hint version_hint : raw) :
  obj !! "kind" = Some r ->
  (forall s : string, r <> RStr s) ->
  dict_get obj "apiVersion" version_hint = RStr "v1" ->
  iobject_from_raw schema obj kind_hint version_hint
  = Raise (TypeError "getattr(): attribute name must be string").
Proof.
  intros Hk Hr Hv. unfold iobject_from_raw. rewrite Hv, getitem_v1.
  cbn [mbind result_bind]. unfold dict_get at 1. rewrite Hk.
  cbn [default from_option id].
  destruct r as [| | |s| |]; try reflexivity. by destruct (Hr s).
Qed.

(** X18.  The version is looked up before the kind is looked at: when it is
    not ["v1"] the [KeyError] carries the version that was asked for,
    [None] when the record has none and no hint is given, whatever the
    kind. *)
Theorem from_raw_unknown_version (obj : gmap string raw)
    (kind_hint version_hint : raw) :
  dict_get obj "apiVersion" version_hint <> RStr "v1" ->
  iobject_from_raw schema obj kind_hint version_hint
  = Raise (KeyError (dict_get obj "apiVersion" version_hint)).
Proof.
  intros Hv. unfold iobject_from_raw.
  by rewrite (getitem_versions_other schema _ Hv).
Qed.

(** X21.  The raw form carries the class's kind and the version ["v1"]
    under the two discriminator keys, and is the serialized value once
    they are taken off. *)
Theorem to_raw_shape (v : iobject) :
  iobject_to_raw v !! "kind" = Some (RStr (kind v))
  /\ iobject_to_raw v !! "apiVersion" = Some (RStr "v1")
  /\ discard "apiVersion" (discard "kind" (iobject_to_raw v))
     = iobject_serialize v.
Proof.
  destruct v; split_and!; reflexivity.
Qed.

End codec_extras.

(** X22.  With ["extensions"] as the group of ["v1beta1"], an instance in a
    namespace that is not empty lives under the base of its version, then
    ["namespaces"] and the namespace, then the plural of its kind, for
    version ["v1"] as for ["v1beta1"]. *)
Theorem collection_location_namespaced (group : string -> string)
    (kind ns : string) :
  group "v1beta1" = "extensions" -> ns <> "" ->
  _network.collection_location group (_network.Instance "v1" kind (Some ns))
    = ["api"; "v1"; "namespaces"; ns; _network.lower kind +:+ "s"]
  /\ _network.collection_location group
       (_network.Instance "v1beta1" kind (Some ns))
    = ["apis"; "extensions"; "v1beta1"; "namespaces"; ns;
       _network.lower kind +:+ "s"].
Proof.
  intros Hgroup Hns. unfold _network.collection_location. simpl.
  rewrite Hgroup. by destruct (decide (ns = "")).
Qed.

(** ** Round trips and renames on collections *)
Section collection_round_trips.
Context {A : Type} `{HasMetadata A} `{EqDecision A}.

Implicit Types (l : list A) (C : _List.t A).

(** X23.  Replacing a member by itself changes nothing, in a collection in
    sorted order where no other member has its sort key. *)
Theorem replace_same C (old : A) :
  ordered object_sort_key (_List.items C) ->
  filter (fun m => object_sort_key m = object_sort_key old) (_List.items C)
    = [old] ->
  _List.replace C old old = Ok C.
Proof.
  intros Ho Hone.
  destruct (replace_in_place_list old old _ Ho Hone eq_refl)
    as (l1 & l2 & Hl & Hr).
  unfold _List.replace.
  destruct (remove old (_List.items C)) as [items1|e]; [|done].
  cbn [mbind result_bind] in *. injection Hr as ->.
  destruct C as [l]. simpl in Hl. by rewrite Hl.
Qed.

(** X24.  Replacing the only member of some name by a value of another
    name makes the old name unknown to [item_by_name]. *)
Theorem replace_renamed C (old new : A) (C' : _List.t A) :
  filter (fun m => name_of m = name_of old) (_List.items C) = [old] ->
  name_of new <> name_of old ->
  _List.replace C old new = Ok C' ->
  _List.item_by_name C' (name_of old) = Raise (KeyError (RStr (name_of old))).
Proof.
  intros Hone Hne HC'. unfold _List.replace, remove in HC'.
  assert (Hin : old ∈ _List.items C).
  { eapply (list_elem_of_filter (fun m => name_of m = name_of old)).
    rewrite Hone. apply list_elem_of_here. }
  destruct (pvector_remove_elem old _ Hin) as (l' & Hl' & Hperm).
  rewrite Hl' in HC'. injection HC' as <-.
  unfold _List.item_by_name. simpl. rewrite first_named_filter.
  assert (Hrest : filter (fun m => name_of m = name_of old) l' = []).
  { apply Permutation_nil_r. apply (Permutation_cons_inv (a := old)).
    rewrite <- Hone at 1. rewrite Hperm, filter_cons.
    by destruct (decide (name_of old = name_of old)). }
  assert (Hnone : filter (fun m => name_of m = name_of old) (add new l')
                  ≡ₚ []).
  { rewrite add_perm, filter_cons, Hrest.
    by destruct (decide (name_of new = name_of old)). }
  apply Permutation_nil_r in Hnone. by rewrite Hnone.
Qed.

(** X26.  After an [add] the name of the added value is always found, by a
    member that carries it. *)
Theorem add_name_found C (obj : A) :
  exists r, _List.item_by_name (_List.add C obj) (name_of obj) = Ok r
    /\ r ∈ _List.items (_List.add C obj)
    /\ name_of r = name_of obj.
Proof.
  apply first_named_present. apply Exists_exists. exists obj.
  split; [|done]. simpl. rewrite add_perm. apply list_elem_of_here.
Qed.

End collection_round_trips.

Lemma replace_same_witness :
  ordered object_sort_key (_List.items sample.x_and_y)
  /\ filter (fun m => object_sort_key m = object_sort_key sample.y_in_a)
       (_List.items sample.x_and_y) = [sample.y_in_a]
  /\ _List.replace sample.x_and_y sample.y_in_a sample.y_in_a
     = Ok sample.x_and_y.
Proof.
  assert (Ho : ordered object_sort_key (_List.items sample.x_and_y)).
  { apply add_ordered. }
  split; [exact Ho|]. split; [reflexivity|].
  exact (replace_same sample.x_and_y sample.y_in_a Ho eq_refl).
Defined.

Lemma replace_renamed_witness :
  filter (fun m => name_of m = name_of sample.y_in_a)
    (_List.items sample.x_and_y) = [sample.y_in_a]
  /\ name_of sample.x_in_b <> name_of sample.y_in_a
  /\ (exists C', _List.replace sample.x_and_y sample.y_in_a sample.x_in_b
                 = Ok C'
        /\ _List.item_by_name C' (name_of sample.y_in_a)
           = Raise (KeyError (RStr (name_of sample.y_in_a)))).
Proof.
  assert (Hne : name_of sample.x_in_b <> name_of sample.y_in_a)
    by discriminate.
  split; [reflexivity|]. split; [exact Hne|].
  eexists. split; [reflexivity|].
  exact (replace_renamed sample.x_and_y sample.y_in_a sample.x_in_b _
           eq_refl Hne eq_refl).
Defined.


(** ** Concrete instances of the further properties *)

Lemma add_inserts_witness :
  ordered object_sort_key (_List.items sample.x_and_y)
  /\ exists l1 l2, _List.items sample.x_and_y = l1 ++ l2
       /\ _List.items (_List.add sample.x_and_y sample.x_in_b)
          = l1 ++ sample.x_in_b :: l2
       /\ Forall (fun x => key_le (object_sort_key x)
                             (object_sort_key sample.x_in_b)) l1
       /\ Forall (fun x => key_lt (object_sort_key sample.x_in_b)
                             (object_sort_key x)) l2.
Proof.
  assert (Ho : ordered object_sort_key (_List.items sample.x_and_y)).
  { apply add_ordered. }
  split; [exact Ho|].
  exact (add_inserts sample.x_and_y sample.x_in_b Ho).
Defined.

Lemma add_comm_witness :
  object_sort_key sample.x_in_a <> object_sort_key sample.y_in_a
  /\ _List.add (_List.add sample.empty sample.x_in_a) sample.y_in_a
     = _List.add (_List.add sample.empty sample.y_in_a) sample.x_in_a.
Proof.
  assert (Hne : object_sort_key sample.x_in_a
                <> object_sort_key sample.y_in_a) by discriminate.
  split; [exact Hne|].
  exact (add_comm sample.empty sample.x_in_a sample.y_in_a Hne).
Defined.

Lemma add_unique_witness :
  ordered object_sort_key [sample.x_in_a; sample.y_in_a]
  /\ [sample.x_in_a; sample.y_in_a]
     = _List.items (_List.add sample.only_x sample.y_in_a).
Proof.
  assert (Ho : ordered object_sort_key [sample.x_in_a; sample.y_in_a]).
  { change [sample.x_in_a; sample.y_in_a]
      with (add sample.y_in_a (_List.items sample.only_x)).
    apply add_ordered. }
  split; [exact Ho|].
  apply (add_unique sample.only_x sample.y_in_a _ Ho).
  intros k.
  change [sample.x_in_a; sample.y_in_a]
    with (add sample.y_in_a (_List.items sample.only_x)).
  apply add_filter.
Defined.

Lemma remove_first_occurrence_witness :
  (sample.x_in_a ∉ [sample.y_in_a])
  /\ remove sample.x_in_a
       ([sample.y_in_a] ++ sample.x_in_a :: [sample.x_in_a])
     = Ok ([sample.y_in_a] ++ [sample.x_in_a]).
Proof.
  assert (Hout : sample.x_in_a ∉ [sample.y_in_a]).
  { intros Hin%list_elem_of_In. vm_compute in Hin.
    destruct Hin as [Hin|[]]; discriminate. }
  split; [exact Hout|].
  exact (remove_first_occurrence sample.x_in_a [sample.y_in_a]
           [sample.x_in_a] Hout).
Defined.

Lemma replace_members_witness :
  _List.replace sample.x_and_y sample.x_in_a sample.x_in_b
    = Ok sample_more.y_and_x_in_b
  /\ sample.x_in_a :: _List.items sample_more.y_and_x_in_b
     ≡ₚ sample.x_in_b :: _List.items sample.x_and_y.
Proof.
  assert (Hr : _List.replace sample.x_and_y sample.x_in_a sample.x_in_b
               = Ok sample_more.y_and_x_in_b) by reflexivity.
  split; [exact Hr|].
  exact (replace_members sample.x_and_y sample.x_in_a sample.x_in_b
           sample_more.y_and_x_in_b Hr).
Defined.

Lemma replace_in_place_witness :
  ordered object_sort_key (_List.items sample.x_and_y)
  /\ filter (fun m => object_sort_key m = object_sort_key sample.x_in_a)
       (_List.items sample.x_and_y) = [sample.x_in_a]
  /\ object_sort_key sample_more.x_in_a' = object_sort_key sample.x_in_a
  /\ exists l1 l2, _List.items sample.x_and_y = l1 ++ sample.x_in_a :: l2
       /\ _List.replace sample.x_and_y sample.x_in_a sample_more.x_in_a'
          = Ok {| _List.items := l1 ++ sample_more.x_in_a' :: l2 |}.
Proof.
  assert (Ho : ordered object_sort_key (_List.items sample.x_and_y)).
  { apply add_ordered. }
  split; [exact Ho|]. split; [reflexivity|]. split; [reflexivity|].
  exact (replace_in_place sample.x_and_y sample.x_in_a sample_more.x_in_a'
           Ho eq_refl eq_refl).
Defined.

Lemma replace_fill_defaults_witness :
  ordered object_sort_key (_List.items sample_more.a_and_b)
  /\ filter (fun m => object_sort_key m = object_sort_key sample_more.ns_a)
       (_List.items sample_more.a_and_b) = [sample_more.ns_a]
  /\ exists l1 l2,
       _List.items sample_more.a_and_b = l1 ++ sample_more.ns_a :: l2
       /\ _List.replace sample_more.a_and_b sample_more.ns_a
            (Namespace.fill_defaults sample_more.ns_a 5)
          = Ok {| _List.items :=
                    l1 ++ Namespace.fill_defaults sample_more.ns_a 5 :: l2 |}.
Proof.
  assert (Ho : ordered object_sort_key (_List.items sample_more.a_and_b)).
  { apply add_ordered. }
  split; [exact Ho|]. split; [reflexivity|].
  exact (replace_fill_defaults sample_more.a_and_b sample_more.ns_a 5
           Ho eq_refl).
Defined.

Lemma add_keeps_other_lookups_witness :
  ordered object_sort_key (_List.items sample.x_and_y)
  /\ name_of sample.x_in_b <> "y"
  /\ _List.item_by_name (_List.add sample.x_and_y sample.x_in_b) "y"
     = _List.item_by_name sample.x_and_y "y".
Proof.
  assert (Ho : ordered object_sort_key (_List.items sample.x_and_y)).
  { apply add_ordered. }
  assert (Hne : name_of sample.x_in_b <> "y") by discriminate.
  split; [exact Ho|]. split; [exact Hne|].
  exact (add_keeps_other_lookups sample.x_and_y sample.x_in_b "y" Ho Hne).
Defined.

Lemma add_then_item_by_name_witness :
  Forall (fun m => name_of m <> name_of sample.y_in_a)
    (_List.items sample.only_x)
  /\ _List.item_by_name (_List.add sample.only_x sample.y_in_a)
       (name_of sample.y_in_a) = Ok sample.y_in_a.
Proof.
  assert (Hnone : Forall (fun m : ConfigMap.t =>
                            name_of m <> name_of sample.y_in_a)
                    (_List.items sample.only_x)).
  { repeat constructor. discriminate. }
  split; [exact Hnone|].
  exact (add_then_item_by_name sample.only_x sample.y_in_a Hnone).
Defined.

Lemma replace_keeps_other_lookups_witness :
  ordered object_sort_key (_List.items sample.x_and_y)
  /\ _List.replace sample.x_and_y sample.x_in_a sample.x_in_b
     = Ok sample_more.y_and_x_in_b
  /\ name_of sample.x_in_a <> "y" /\ name_of sample.x_in_b <> "y"
  /\ _List.item_by_name sample_more.y_and_x_in_b "y"
     = _List.item_by_name sample.x_and_y "y".
Proof.
  assert (Ho : ordered object_sort_key (_List.items sample.x_and_y)).
  { apply add_ordered. }
  assert (Hr : _List.replace sample.x_and_y sample.x_in_a sample.x_in_b
               = Ok sample_more.y_and_x_in_b) by reflexivity.
  assert (Hold : name_of sample.x_in_a <> "y") by discriminate.
  assert (Hnew : name_of sample.x_in_b <> "y") by discriminate.
  split; [exact Ho|]. split; [exact Hr|].
  split; [exact Hold|]. split; [exact Hnew|].
  exact (replace_keeps_other_lookups sample.x_and_y sample.x_in_a
           sample.x_in_b sample_more.y_and_x_in_b "y" Ho Hr Hold Hnew).
Defined.

Lemma from_raw_hints_as_fields_witness :
  sample_more.untagged !! "kind" = None
  /\ sample_more.untagged !! "apiVersion" = None
  /\ iobject_from_raw sample.no_definitions sample_more.untagged
       (RStr "ConfigMap") (RStr "v1")
     = iobject_from_raw sample.no_definitions
         (<["kind" := RStr "ConfigMap"]>
            (<["apiVersion" := RStr "v1"]> sample_more.untagged))
         RNone RNone.
Proof.
  split; [reflexivity|]. split; [reflexivity|].
  apply (from_raw_hints_as_fields sample.no_definitions sample_more.untagged);
    reflexivity.
Defined.

Lemma from_raw_ignores_hints_witness :
  is_Some (iobject_to_raw (IConfigMap sample.x_in_a) !! "kind")
  /\ is_Some (iobject_to_raw (IConfigMap sample.x_in_a) !! "apiVersion")
  /\ iobject_from_raw sample.no_definitions
       (iobject_to_raw (IConfigMap sample.x_in_a)) (RStr "Namespace") RNone
     = iobject_from_raw sample.no_definitions
         (iobject_to_raw (IConfigMap sample.x_in_a)) RNone (RStr "v2").
Proof.
  assert (Hk : is_Some (iobject_to_raw (IConfigMap sample.x_in_a) !! "kind")).
  { by eexists. }
  assert (Hv : is_Some
                 (iobject_to_raw (IConfigMap sample.x_in_a) !! "apiVersion")).
  { by eexists. }
  split; [exact Hk|]. split; [exact Hv|].
  exact (from_raw_ignores_hints sample.no_definitions _ _ _ _ _ Hk Hv).
Defined.

Lemma from_raw_kind_not_string_witness :
  ({[ "kind" := RNone; "apiVersion" := RStr "v1" ]} : gmap string raw)
    !! "kind" = Some RNone
  /\ (forall s : string, RNone <> RStr s)
  /\ dict_get {[ "kind" := RNone; "apiVersion" := RStr "v1" ]}
       "apiVersion" RNone = RStr "v1"
  /\ iobject_from_raw sample.no_definitions
       {[ "kind" := RNone; "apiVersion" := RStr "v1" ]}
       (RStr "Namespace") RNone
     = Raise (TypeError "getattr(): attribute name must be string").
Proof.
  assert (Hr : forall s : string, RNone <> RStr s) by discriminate.
  split; [reflexivity|]. split; [exact Hr|]. split; [reflexivity|].
  exact (from_raw_kind_not_string sample.no_definitions
           {[ "kind" := RNone; "apiVersion" := RStr "v1" ]}
           RNone (RStr "Namespace") RNone eq_refl Hr eq_refl).
Defined.

Lemma from_raw_unknown_version_witness :
  dict_get ({[ "kind" := RStr "Namespace" ]} : gmap string raw)
    "apiVersion" RNone <> RStr "v1"
  /\ iobject_from_raw sample.no_definitions
       {[ "kind" := RStr "Namespace" ]} RNone RNone
     = Raise (KeyError RNone).
Proof.
  assert (Hv : dict_get ({[ "kind" := RStr "Namespace" ]} : gmap string raw)
                 "apiVersion" RNone <> RStr "v1") by discriminate.
  split; [exact Hv|].
  exact (from_raw_unknown_version sample.no_definitions
           {[ "kind" := RStr "Namespace" ]} RNone RNone Hv).
Defined.

Lemma collection_location_namespaced_witness :
  (fun _ : string => "extensions") "v1beta1" = "extensions"
  /\ "ns" <> ""
  /\ _network.collection_location (fun _ => "extensions")
       (_network.Instance "v1beta1" "Mythical" (Some "ns"))
     = ["apis"; "extensions"; "v1beta1"; "namespaces"; "ns"; "mythicals"].
Proof.
  assert (Hns : "ns" <> "") by discriminate.
  split; [reflexivity|]. split; [exact Hns|].
  exact (proj2 (collection_location_namespaced (fun _ => "extensions")
                  "Mythical" "ns" eq_refl Hns)).
Defined.

(** ** Looking up the name after a replacement *)
Section replace_lookup.
Context {A : Type} `{HasMetadata A} `{EqDecision A}.

Implicit Types (l : list A) (C : _List.t A).

Lemma first_named_app_absent (name : string) l1 l2 :
  Forall (fun m => name_of m <> name) l1 ->
  first_named name (l1 ++ l2) = first_named name l2.
Proof.
  induction 1 as [|x l1 Hx _ IH]; simpl; [done|].
  by destruct (decide (ObjectMeta.name (metadata x) = name)).
Qed.

Lemma first_named_app_present (name : string) l1 l2 :
  Exists (fun m => name_of m = name) l1 ->
  first_named name (l1 ++ l2) = first_named name l1.
Proof.
  induction l1 as [|x l1 IH]; intros Hex; [by apply Exists_nil in Hex|].
  simpl. destruct (decide (ObjectMeta.name (metadata x) = name)) as [|Hx];
    [done|].
  apply Exists_cons in Hex as [?|Hex]; [done|]. by apply IH.
Qed.

(** Adding to a sequence is adding to it once sorted. *)
Lemma add_sorted (value : A) l :
  add value l = add value (sorted object_sort_key l).
Proof.
  apply (ordered_unique object_sort_key); [apply add_ordered..|].
  intros k. by rewrite !add_filter, sorted_stable.
Qed.

(** Where the added value comes to stand among the others, once sorted. *)
Lemma add_split_sorted (value : A) l :
  exists l1 l2, l1 ++ l2 ≡ₚ l
    /\ add value l = l1 ++ value :: l2
    /\ Forall (fun x => key_le (object_sort_key x) (object_sort_key value)) l1
    /\ Forall (fun x => key_lt (object_sort_key value) (object_sort_key x)) l2.
Proof.
  destruct (add_split value (sorted object_sort_key l))
    as (l1 & l2 & Hl & Hadd & H1 & H2); [apply sorted_ordered|].
  exists l1, l2. split_and!; try done.
  - by rewrite <- Hl, sorted_perm.
  - by rewrite add_sorted.
Qed.

(** C3 (as amended).  Let [old] be a member of the collection and [rest] the
    other members.  Then [replace] succeeds and the number of items is
    unchanged.  When [new] carries the name of [old]: looking that name up in
    the result gives [new] if every member of [rest] with that name sorts
    strictly after [new]; and if the lookup gives [new], then either that is
    so or [new] was itself among [rest]. *)
Theorem replace_item_by_name C (old new : A) (rest : list A) :
  _List.items C ≡ₚ old :: rest ->
  exists C', _List.replace C old new = Ok C'
    /\ List.length (_List.items C') = List.length (_List.items C)
    /\ (name_of new = name_of old ->
        Forall (fun m => name_of m = name_of old ->
                  key_lt (object_sort_key new) (object_sort_key m)) rest ->
        _List.item_by_name C' (name_of old) = Ok new)
    /\ (name_of new = name_of old ->
        _List.item_by_name C' (name_of old) = Ok new ->
        Forall (fun m => name_of m = name_of old ->
                  key_lt (object_sort_key new) (object_sort_key m)) rest
        \/ new ∈ rest).
Proof.
  intros Hperm.
  assert (Hin : old ∈ _List.items C).
  { rewrite Hperm. apply list_elem_of_here. }
  unfold _List.replace, remove.
  destruct (pvector_remove_elem old _ Hin) as (rest' & -> & Hperm').
  assert (Hrest : rest' ≡ₚ rest).
  { apply (Permutation_cons_inv (a := old)). by rewrite <- Hperm', Hperm. }
  eexists. split; [reflexivity|]. cbn [_List.items].
  unfold _List.item_by_name. cbn [_List.items].
  destruct (add_split_sorted new rest') as (l1 & l2 & Hl & -> & H1 & H2).
  rewrite Hrest in Hl.
  split_and!.
  - rewrite Hperm, <- Hl, !length_app. simpl. rewrite length_app. lia.
  - intros Hname Hafter.
    rewrite first_named_app_absent.
    + simpl. by destruct (decide (ObjectMeta.name (metadata new)
                                  = name_of old)).
    + apply Forall_forall. intros m Hm Hmn.
      assert (Hlt : key_lt (object_sort_key new) (object_sort_key m)).
      { eapply Forall_forall in Hafter; [by apply Hafter|].
        rewrite <- Hl. apply elem_of_app. by left. }
      eapply Forall_forall in H1; [|exact Hm].
      by apply key_lt_not_le in Hlt.
  - intros Hname Hfound.
    assert (Hdec : forall m : A, Decision (name_of m = name_of old ->
              key_lt (object_sort_key new) (object_sort_key m))).
    { intros m. unfold key_lt. apply _. }
    destruct (decide (Forall (fun m => name_of m = name_of old ->
                key_lt (object_sort_key new) (object_sort_key m)) rest))
      as [Hall|Hnot]; [by left|right].
    apply not_Forall_Exists in Hnot; [|apply _].
    apply Exists_exists in Hnot as (m & Hm & Hnm). simpl in Hnm.
    assert (Hmn : name_of m = name_of old).
    { destruct (decide (name_of m = name_of old)); [done|].
      by destruct Hnm. }
    assert (Hml1 : m ∈ l1).
    { rewrite <- Hl in Hm. apply elem_of_app in Hm as [?|Hm2]; [done|].
      eapply Forall_forall in H2; [|exact Hm2]. destruct Hnm. by intros _. }
    rewrite first_named_app_present in Hfound.
    + apply first_named_ok in Hfound as [Hnew _].
      rewrite <- Hl. apply elem_of_app. by left.
    + apply Exists_exists. by exists m.
Qed.

End replace_lookup.

Lemma replace_item_by_name_witness :
  _List.items sample.both_x ≡ₚ sample.x_in_a :: [sample.x_in_b]
  /\ exists C',
       _List.replace sample.both_x sample.x_in_a sample_more.x_in_a' = Ok C'
       /\ List.length (_List.items C') = List.length (_List.items sample.both_x)
       /\ _List.item_by_name C' (name_of sample.x_in_a)
          = Ok sample_more.x_in_a'.
Proof.
  assert (Hperm : _List.items sample.both_x
                  ≡ₚ sample.x_in_a :: [sample.x_in_b]) by reflexivity.
  split; [exact Hperm|].
  destruct (replace_item_by_name sample.both_x sample.x_in_a
              sample_more.x_in_a' [sample.x_in_b] Hperm)
    as (C' & Hreplace & Hlength & Hfound & _).
  exists C'. split; [exact Hreplace|]. split; [exact Hlength|].
  apply Hfound; [reflexivity|].
  repeat constructor.
Defined.
